(** * Blackjack round engine (gui.py): shallow embedding and properties

    The development follows the Python source top-down:
    cards and the [Deck] class, [value_of_hand], then the controller
    [BlackjackApp] with its methods [new_round], [hit], [stand],
    [_dealer_play] and [_end_round].  Widget layout and text rendering are
    left out; the text log and the error dialogs are kept as event lists
    because they are the only place where the source records the outcome of
    a round. *)

From Equations Require Import Equations.
From stdpp Require Import base list.
From Stdlib Require Import ZArith Lia Bool.

Local Open Scope Z_scope.

(** ** Cards *)

(** [SUITS = ['♠', '♥', '♦', '♣']] *)
Inductive suit := Spades | Hearts | Diamonds | Clubs.

(** [RANKS = ['2', ..., '10', 'J', 'Q', 'K', 'A']] *)
Inductive rank :=
  | R2 | R3 | R4 | R5 | R6 | R7 | R8 | R9 | R10 | J | Q | K | A.

Definition card : Type := rank * suit.

Definition SUITS : list suit := [Spades; Hearts; Diamonds; Clubs].
Definition RANKS : list rank :=
  [R2; R3; R4; R5; R6; R7; R8; R9; R10; J; Q; K; A].

(** [int(r)] on the numeric rank texts; the three pictures and the ace are
    filtered out by the caller before [int] is reached, and [int] would raise
    on them. *)
Definition int_of_rank (r : rank) : option Z :=
  match r with
  | R2 => Some 2 | R3 => Some 3 | R4 => Some 4 | R5 => Some 5
  | R6 => Some 6 | R7 => Some 7 | R8 => Some 8 | R9 => Some 9
  | R10 => Some 10
  | J | Q | K | A => None
  end.

(** ** [value_of_hand] *)

(** One iteration of [for r, _ in hand], on the pair [(vals, aces)]. *)
Definition tally (acc : Z * nat) (c : card) : Z * nat :=
  let '(vals, aces) := acc in
  match c.1 with
  | J | Q | K => (vals + 10, aces)
  | A => (vals + 11, S aces)
  | r => (vals + default 0 (int_of_rank r), aces)
  end.

(** [while vals > 21 and aces: vals -= 10; aces -= 1] *)
Fixpoint reduce_aces (vals : Z) (aces : nat) : Z :=
  match aces with
  | O => vals
  | S aces' => if 21 <? vals then reduce_aces (vals - 10) aces' else vals
  end.

Definition value_of_hand (hand : list card) : Z :=
  let '(vals, aces) := fold_left tally hand (0, O) in
  reduce_aces vals aces.

(** *** Reference definition, after the wording of the specification *)

Module Reference.

(** "Face cards (J, Q, K) count 10; numeric ranks count their face value;
    Ace counts as 11 initially." *)
Definition card_value (c : card) : Z :=
  match c.1 with
  | R2 => 2 | R3 => 3 | R4 => 4 | R5 => 5 | R6 => 6 | R7 => 7
  | R8 => 8 | R9 => 9 | R10 => 10
  | J => 10 | Q => 10 | K => 10
  | A => 11
  end.

Definition is_ace (c : card) : bool :=
  match c.1 with A => true | _ => false end.

(** [raw]: the sum with every ace at 11. *)
Definition raw (hand : list card) : Z :=
  foldr (fun c acc => card_value c + acc) 0 hand.

(** [aceCount]: the number of aces in the hand. *)
Definition aceCount (hand : list card) : nat :=
  length (filter (fun c => is_ace c = true) hand).

(** "While raw > 21 and aceCount > 0: subtract 10 from raw, decrement
    aceCount." *)
Fixpoint soften (raw : Z) (aceCount : nat) : Z :=
  match aceCount with
  | O => raw
  | S n => if raw >? 21 then soften (raw - 10) n else raw
  end.

Definition value_of (hand : list card) : Z :=
  soften (raw hand) (aceCount hand).

(** The same reduction without a loop: the number of aces demoted is the
    least [k] with [raw - 10 k <= 21], capped by the number of aces. *)
Definition value_closed (hand : list card) : Z :=
  raw hand - 10 * Z.min (Z.of_nat (aceCount hand))
                        (Z.max 0 ((raw hand - 12) / 10)).

End Reference.

(** ** Properties of [value_of_hand] *)

Section ValueOfHand.

Lemma tally_fold hand vals aces :
  fold_left tally hand (vals, aces) =
  (vals + Reference.raw hand, (aces + Reference.aceCount hand)%nat).
Proof.
  revert vals aces.
  induction hand as [|[r s] hand IH]; intros vals aces; simpl.
  - unfold Reference.aceCount. rewrite filter_nil. simpl. f_equal; lia.
  - unfold Reference.aceCount in *. rewrite filter_cons.
    destruct r; simpl; rewrite IH; unfold Reference.card_value; simpl;
      f_equal; lia.
Qed.

Lemma reduce_aces_soften vals aces :
  reduce_aces vals aces = Reference.soften vals aces.
Proof.
  revert vals. induction aces as [|n IH]; intros vals; simpl; [done|].
  rewrite Z.gtb_ltb. destruct (21 <? vals); [apply IH | done].
Qed.

Lemma value_of_hand_unfold hand :
  value_of_hand hand =
  reduce_aces (Reference.raw hand) (Reference.aceCount hand).
Proof.
  unfold value_of_hand. rewrite tally_fold. simpl. done.
Qed.

End ValueOfHand.

Section ValueOfHandReference.

Lemma soften_closed raw n :
  Reference.soften raw n =
  raw - 10 * Z.min (Z.of_nat n) (Z.max 0 ((raw - 12) / 10)).
Proof.
  revert raw. induction n as [|n IH]; intros raw.
  - simpl. lia.
  - cbn [Reference.soften]. destruct (Z.gtb_spec raw 21) as [Hgt|Hle].
    + rewrite IH.
      replace (raw - 12) with ((raw - 10 - 12) + 1 * 10) by lia.
      rewrite Z.div_add by lia.
      assert (0 <= (raw - 10 - 12) / 10) by (apply Z.div_pos; lia).
      lia.
    + assert ((raw - 12) / 10 <= 0).
      { destruct (Z.le_gt_cases 12 raw).
        - rewrite Z.div_small; lia.
        - assert ((raw - 12) / 10 < 0) by (apply Z.div_lt_upper_bound; lia).
          lia. }
      lia.
Qed.

Lemma value_of_hand_closed hand :
  value_of_hand hand = Reference.value_closed hand.
Proof.
  rewrite value_of_hand_unfold, reduce_aces_soften.
  apply soften_closed.
Qed.

Lemma raw_Permutation h1 h2 : h1 ≡ₚ h2 → Reference.raw h1 = Reference.raw h2.
Proof.
  induction 1; simpl; lia.
Qed.

Lemma aceCount_Permutation h1 h2 :
  h1 ≡ₚ h2 → Reference.aceCount h1 = Reference.aceCount h2.
Proof.
  intros Hp. unfold Reference.aceCount. by rewrite Hp.
Qed.

(** C1: for every hand, [value_of_hand] returns the total of the reference
    definition: pictures at 10, numeric ranks at face value, every ace at 11,
    then 10 subtracted while the total exceeds 21 and an ace still counted
    as 11 remains. *)
Theorem value_of_hand_refines_reference (hand : list card) :
  value_of_hand hand = Reference.value_of hand.
Proof.
  unfold Reference.value_of.
  rewrite value_of_hand_unfold. apply reduce_aces_soften.
Qed.

(** C9: [value_of_hand] is a function of the hand alone, and two hands that
    are permutations of each other have the same total. *)
Theorem value_of_hand_Permutation (h1 h2 : list card) :
  h1 ≡ₚ h2 → value_of_hand h1 = value_of_hand h2.
Proof.
  intros Hp. rewrite !value_of_hand_unfold.
  by rewrite (raw_Permutation _ _ Hp), (aceCount_Permutation _ _ Hp).
Qed.

Lemma value_of_hand_Permutation_witness :
  [(A, Spades); (R9, Hearts); (K, Diamonds)] ≡ₚ
    [(K, Diamonds); (A, Spades); (R9, Hearts)] ∧
  value_of_hand [(A, Spades); (R9, Hearts); (K, Diamonds)] =
  value_of_hand [(K, Diamonds); (A, Spades); (R9, Hearts)].
Proof.
  assert (Hp : [(A, Spades); (R9, Hearts); (K, Diamonds)] ≡ₚ
               [(K, Diamonds); (A, Spades); (R9, Hearts)]).
  { symmetry.
    apply (Permutation_cons_append [(A, Spades); (R9, Hearts)] (K, Diamonds)). }
  split; [exact Hp | exact (value_of_hand_Permutation _ _ Hp)].
Defined.

Example value_of_hand_ace_nine :
  value_of_hand [(A, Spades); (R9, Hearts)] = 20.
Proof. reflexivity. Qed.

Example value_of_hand_ace_nine_king :
  value_of_hand [(A, Spades); (R9, Hearts); (K, Clubs)] = 20.
Proof. reflexivity. Qed.

Example value_of_hand_bust :
  value_of_hand [(K, Spades); (R9, Hearts); (R6, Clubs)] = 25.
Proof. reflexivity. Qed.

End ValueOfHandReference.

(** ** The [random] module

    [random.shuffle] is library code.  It is modelled as CPython implements
    it, a Fisher-Yates pass driven by [randbelow], over an explicit source of
    raw draws: [entropy] is the infinite sequence of raw numbers the
    generator will produce and [drawn] counts how many were consumed. *)

Record random_state := { entropy : nat → nat; drawn : nat }.

Definition randbelow (n : nat) (g : random_state) : nat * random_state :=
  ((entropy g (drawn g) mod n)%nat,
   {| entropy := entropy g; drawn := S (drawn g) |}).

(** [x[i], x[j] = x[j], x[i]] *)
Definition swap {T} (i j : nat) (x : list T) : list T :=
  match x !! i, x !! j with
  | Some xi, Some xj => <[j := xi]> (<[i := xj]> x)
  | _, _ => x
  end.

(** [for i in reversed(range(1, len(x))): j = randbelow(i + 1); swap],
    entered with [i] the largest index still to visit. *)
Fixpoint shuffle_loop {T} (i : nat) (x : list T) (g : random_state)
  : list T * random_state :=
  match i with
  | O => (x, g)
  | S i' =>
      let '(j, g') := randbelow (S i) g in
      shuffle_loop i' (swap i j x) g'
  end.

Definition shuffle {T} (x : list T) (g : random_state)
  : list T * random_state :=
  shuffle_loop (length x - 1)%nat x g.

(** ** [class Deck] *)

(** [rng] is the state of the [random] module; the deck is its only user in
    the program, so it travels with the deck. *)
Record Deck := { cards : list card; rng : random_state }.

(** [[(r, s) for s in SUITS for r in RANKS]] *)
Definition full_deck : list card :=
  s ← SUITS; r ← RANKS; [(r, s)].

Definition Deck__init__ (g : random_state) : Deck :=
  let '(cs, g') := shuffle full_deck g in
  {| cards := cs; rng := g' |}.

(** [list.pop()]: removes and returns the last item; [None] stands for the
    [IndexError] of popping an empty list. *)
Definition pop {T} (l : list T) : option (T * list T) :=
  match last l with
  | Some x => Some (x, take (length l - 1)%nat l)
  | None => None
  end.

Definition deal (d : Deck) : option (card * Deck) :=
  let d := match cards d with
           | [] => Deck__init__ (rng d)
           | _ :: _ => d
           end in
  match pop (cards d) with
  | Some (c, rest) => Some (c, {| cards := rest; rng := rng d |})
  | None => None
  end.

(** [n] successive calls of [deal], collecting the cards in dealing order. *)
Fixpoint deal_n (n : nat) (d : Deck) : option (list card * Deck) :=
  match n with
  | O => Some ([], d)
  | S n' =>
      match deal d with
      | Some (c, d') =>
          match deal_n n' d' with
          | Some (cs, d'') => Some (c :: cs, d'')
          | None => None
          end
      | None => None
      end
  end.

(** ** Python numbers: [int(self.bet * 2.5)]

    [int * float] converts the integer to a binary64 float (correctly
    rounded, [OverflowError] when out of range), multiplies in binary64, and
    [int()] truncates.  Only positive operands of magnitude at least 1/2 occur
    here, so a float is a positive dyadic [mant * 2^expo] or infinity, and
    subnormals never arise. *)

Inductive exn := IndexError | OverflowError.

Inductive res (T : Type) :=
  | Ok (v : T)
  | Raise (e : exn).
Arguments Ok {T} v.
Arguments Raise {T} e.

Record dyadic := { mant : Z; expo : Z }.

Inductive float := Finite (x : dyadic) | Inf.

(** Round to a 53-bit significand, to nearest, ties to even. *)
Definition rne (x : dyadic) : dyadic :=
  let e := Z.log2 (mant x) in
  if e <=? 52 then x
  else
    let s := e - 52 in
    let q := Z.shiftr (mant x) s in
    let r := Z.land (mant x) (Z.ones s) in
    let half := Z.shiftl 1 (s - 1) in
    let q' := if (half <? r) || ((r =? half) && Z.odd q) then q + 1 else q in
    {| mant := q'; expo := expo x + s |}.

(** A positive dyadic is out of the binary64 range from [2^1024] on. *)
Definition too_large (x : dyadic) : bool :=
  1024 <=? Z.log2 (mant x) + expo x.

Definition float_of_int (n : Z) : res float :=
  let x := rne {| mant := n; expo := 0 |} in
  if too_large x then Raise OverflowError else Ok (Finite x).

Definition float_mul (a b : float) : float :=
  match a, b with
  | Finite x, Finite y =>
      let z := rne {| mant := mant x * mant y; expo := expo x + expo y |} in
      if too_large z then Inf else Finite z
  | _, _ => Inf
  end.

(** [int(f)] for a positive float: truncation, [OverflowError] on infinity. *)
Definition int_of_float (f : float) : res Z :=
  match f with
  | Finite x => Ok (Z.shiftl (mant x) (expo x))
  | Inf => Raise OverflowError
  end.

(** The literal [2.5] is exactly [5 * 2^-1]. *)
Definition two_and_a_half : float := Finite {| mant := 5; expo := -1 |}.

(** [int(bet * 2.5)] *)
Definition int_times_2_5 (bet : Z) : res Z :=
  match float_of_int bet with
  | Ok f => int_of_float (float_mul f two_and_a_half)
  | Raise e => Raise e
  end.

(** ** [class BlackjackApp]

    The widgets are left out.  [txt_log] keeps the lines written by
    [self.log], one constructor per message of the source, and [dialogs] the
    error boxes raised by [messagebox.showerror].

    The methods below describe the engine: the shoe, the hands, the round
    flag, the bankroll and the bet, with the exceptions of the shoe and of
    the arithmetic.  The conversion of numbers to text, by [self.log] and by
    the [self._update_ui()] that closes a call, is not part of them; it
    changes no engine field, and from CPython 3.11 on it raises [ValueError]
    on an integer of more than 4300 digits.  Nothing below is a statement on
    the exceptions of that conversion. *)

Inductive msg :=
  | RoundAlreadyInProgress
  | NewRoundBet (b : Z)
  | PlayerHand (hand : list card) (v : Z)
  | DealerShows (c : card)
  | BlackjackYouWin (winnings : Z)
  | BothBlackjackPush
  | PlayerHits (c : card) (v : Z)
  | PlayerBusted
  | PlayerStandsWith (v : Z)
  | DealerReveals (hand : list card) (v : Z)
  | DealerHits (c : card) (v : Z)
  | DealerBusted
  | DealerStandsWith (v : Z)
  | YouWin (winnings : Z)
  | PushBetReturned
  | YouLostTheBet
  | BankrollExhausted.

Inductive dialog := InvalidBet | InsufficientBankroll.

Record App := {
  deck : Deck;
  player : list card;
  dealer : list card;
  in_round : bool;
  bankroll : Z;
  bet : Z;
  txt_log : list msg;
  dialogs : list dialog
}.

Definition set_deck (d : Deck) (s : App) : App :=
  {| deck := d; player := player s; dealer := dealer s;
     in_round := in_round s; bankroll := bankroll s; bet := bet s;
     txt_log := txt_log s; dialogs := dialogs s |}.

Definition set_player (h : list card) (s : App) : App :=
  {| deck := deck s; player := h; dealer := dealer s;
     in_round := in_round s; bankroll := bankroll s; bet := bet s;
     txt_log := txt_log s; dialogs := dialogs s |}.

Definition set_dealer (h : list card) (s : App) : App :=
  {| deck := deck s; player := player s; dealer := h;
     in_round := in_round s; bankroll := bankroll s; bet := bet s;
     txt_log := txt_log s; dialogs := dialogs s |}.

Definition set_in_round (b : bool) (s : App) : App :=
  {| deck := deck s; player := player s; dealer := dealer s;
     in_round := b; bankroll := bankroll s; bet := bet s;
     txt_log := txt_log s; dialogs := dialogs s |}.

Definition set_bankroll (z : Z) (s : App) : App :=
  {| deck := deck s; player := player s; dealer := dealer s;
     in_round := in_round s; bankroll := z; bet := bet s;
     txt_log := txt_log s; dialogs := dialogs s |}.

Definition set_bet (z : Z) (s : App) : App :=
  {| deck := deck s; player := player s; dealer := dealer s;
     in_round := in_round s; bankroll := bankroll s; bet := z;
     txt_log := txt_log s; dialogs := dialogs s |}.

Definition add_log (m : msg) (s : App) : App :=
  {| deck := deck s; player := player s; dealer := dealer s;
     in_round := in_round s; bankroll := bankroll s; bet := bet s;
     txt_log := txt_log s ++ [m]; dialogs := dialogs s |}.

Definition add_dialog (d : dialog) (s : App) : App :=
  {| deck := deck s; player := player s; dealer := dealer s;
     in_round := in_round s; bankroll := bankroll s; bet := bet s;
     txt_log := txt_log s; dialogs := dialogs s ++ [d] |}.

(** Methods run in a state monad over [App] in which an exception leaves the
    object as it was mutated up to the raise, as in Python. *)
Definition M (T : Type) : Type := App → res T * App.

#[global] Instance M_ret : MRet M := λ T (v : T) s, (Ok v, s).

#[global] Instance M_bind : MBind M := λ T U (k : T → M U) (m : M T) s,
  match m s with
  | (Ok v, s') => k v s'
  | (Raise e, s') => (Raise e, s')
  end.

Definition get : M App := λ s, (Ok s, s).
Definition modify (f : App → App) : M unit := λ s, (Ok tt, f s).
Definition lift {T} (r : res T) : M T := λ s, (r, s).
Definition log (m : msg) : M unit := modify (add_log m).
Definition showerror (d : dialog) : M unit := modify (add_dialog d).

(** [self.deck.deal()] *)
Definition deck_deal : M card := λ s,
  match deal (deck s) with
  | Some (c, d') => (Ok c, set_deck d' s)
  | None => (Raise IndexError, s)
  end.

Definition BlackjackApp__init__ (g : random_state) : App :=
  {| deck := Deck__init__ g; player := []; dealer := [];
     in_round := false; bankroll := 1000; bet := 10;
     txt_log := []; dialogs := [] |}.

(** The local variable [result] of [_end_round]. *)
Inductive result := win | push | lose.

Definition round_result (pv dv : Z) : result :=
  if 21 <? pv then lose
  else if 21 <? dv then win
  else if dv <? pv then win
  else if pv =? dv then push
  else lose.

Definition _end_round : M unit :=
  s ← get;
  let pv := value_of_hand (player s) in
  let dv := value_of_hand (dealer s) in
  match round_result pv dv with
  | win =>
      let winnings := bet s * 2 in
      modify (set_bankroll (bankroll s + winnings));;
      log (YouWin winnings)
  | push =>
      modify (set_bankroll (bankroll s + bet s));;
      log PushBetReturned
  | lose => log YouLostTheBet
  end;;
  s ← get;
  if bankroll s <=? 0 then
    log BankrollExhausted;;
    modify (set_bankroll 1000)
  else mret tt.

(** Every card counts at least 1, also after the ace reduction: a hand is
    worth at least its number of cards.  This is what bounds the dealer's
    loop. *)
Lemma raw_cons c hand :
  Reference.raw (c :: hand) = Reference.card_value c + Reference.raw hand.
Proof. reflexivity. Qed.

Lemma aceCount_cons c hand :
  Reference.aceCount (c :: hand) =
  ((if Reference.is_ace c then 1 else 0) + Reference.aceCount hand)%nat.
Proof.
  unfold Reference.aceCount. rewrite filter_cons.
  destruct (Reference.is_ace c); case_decide; done.
Qed.

Lemma raw_lower_bound hand :
  2 * Z.of_nat (length hand) + 9 * Z.of_nat (Reference.aceCount hand)
  ≤ Reference.raw hand.
Proof.
  induction hand as [|[r s] hand IH]; [reflexivity|].
  rewrite raw_cons, aceCount_cons, length_cons.
  destruct r; cbn [Reference.is_ace Reference.card_value fst]; lia.
Qed.

Lemma reduce_aces_lower_bound vals aces :
  vals - 10 * Z.of_nat aces ≤ reduce_aces vals aces.
Proof.
  revert vals. induction aces as [|n IH]; intros vals; simpl; [lia|].
  destruct (21 <? vals); [specialize (IH (vals - 10))|]; lia.
Qed.

Lemma value_of_hand_ge_length hand :
  Z.of_nat (length hand) ≤ value_of_hand hand.
Proof.
  rewrite value_of_hand_unfold.
  pose proof (raw_lower_bound hand).
  pose proof (reduce_aces_lower_bound (Reference.raw hand)
                (Reference.aceCount hand)).
  assert (Reference.aceCount hand ≤ length hand)%nat
    by apply length_filter.
  lia.
Qed.

(** [while value_of_hand(self.dealer) < 17: card = self.deck.deal();
    self.dealer.append(card); self.log(...)].  The source gives no bound on
    the iterations; the recursion is justified by the number of cards the
    dealer can still take before the hand is worth 17. *)
Equations? dealer_loop (s : App) : res unit * App
  by wf (17 - length (dealer s))%nat lt :=
  dealer_loop s with Equations.Prop.Logic.inspect (value_of_hand (dealer s) <? 17) := {
    | exist _ true Hlt with deal (deck s) := {
        | Some (c, d') =>
            dealer_loop
              (add_log (DealerHits c (value_of_hand (dealer s ++ [c])))
                 (set_dealer (dealer s ++ [c]) (set_deck d' s)));
        | None => (Raise IndexError, s) };
    | exist _ false _ => (Ok tt, s) }.
Proof.
  cbn [dealer add_log set_dealer]. rewrite length_app. simpl.
  apply Z.ltb_lt in Hlt.
  pose proof (value_of_hand_ge_length (dealer s)). lia.
Qed.

Definition _dealer_play : M unit :=
  s ← get;
  log (DealerReveals (dealer s) (value_of_hand (dealer s)));;
  dealer_loop;;
  s ← get;
  (if 21 <? value_of_hand (dealer s) then log DealerBusted
   else log (DealerStandsWith (value_of_hand (dealer s))));;
  modify (set_in_round false);;
  _end_round.

Definition stand : M unit :=
  s ← get;
  if negb (in_round s) then mret tt
  else
    log (PlayerStandsWith (value_of_hand (player s)));;
    _dealer_play.

Definition hit : M unit :=
  s ← get;
  if negb (in_round s) then mret tt
  else
    c ← deck_deal;
    modify (λ s, set_player (player s ++ [c]) s);;
    s ← get;
    log (PlayerHits c (value_of_hand (player s)));;
    if 21 <? value_of_hand (player s) then
      log PlayerBusted;;
      modify (set_in_round false);;
      _end_round
    else mret tt.

(** [ent_bet] is the outcome of [int(self.ent_bet.get())]: [Some b] when the
    entry text reads as the integer [b], [None] when [int] raises. *)
Definition new_round (ent_bet : option Z) : M unit :=
  s ← get;
  if in_round s then log RoundAlreadyInProgress
  else
    match ent_bet with
    | None => showerror InvalidBet
    | Some b =>
        if b <=? 0 then showerror InvalidBet
        else if bankroll s <? b then showerror InsufficientBankroll
        else
          modify (set_bet b);;
          modify (set_bankroll (bankroll s - b));;
          p1 ← deck_deal; p2 ← deck_deal;
          modify (set_player [p1; p2]);;
          d1 ← deck_deal; d2 ← deck_deal;
          modify (set_dealer [d1; d2]);;
          modify (set_in_round true);;
          s ← get;
          log (NewRoundBet (bet s));;
          log (PlayerHand (player s) (value_of_hand (player s)));;
          log (DealerShows d1);;
          s ← get;
          let pv := value_of_hand (player s) in
          let dv := value_of_hand (dealer s) in
          if (pv =? 21) && negb (dv =? 21) then
            s ← get;
            winnings ← lift (int_times_2_5 (bet s));
            modify (set_bankroll (bankroll s + winnings));;
            log (BlackjackYouWin winnings);;
            modify (set_in_round false)
          else if (pv =? 21) && (dv =? 21) then
            s ← get;
            modify (set_bankroll (bankroll s + bet s));;
            log BothBlackjackPush;;
            modify (set_in_round false)
          else mret tt
    end.

(** One call of the presentation layer into the controller. *)
Inductive call := NewRound (ent_bet : option Z) | Hit | Stand.

Definition run (c : call) : M unit :=
  match c with
  | NewRound e => new_round e
  | Hit => hit
  | Stand => stand
  end.

(** States the application can be in: the constructor ran with some state
    of the random generator, then any sequence of calls was made. *)
Inductive reachable : App → Prop :=
  | reach_init g : reachable (BlackjackApp__init__ g)
  | reach_call c s : reachable s → reachable (run c s).2.

(** ** The deck *)

#[global] Instance suit_eq_dec : EqDecision suit.
Proof. solve_decision. Defined.

#[global] Instance rank_eq_dec : EqDecision rank.
Proof. solve_decision. Defined.

Section DeckFacts.

Lemma full_deck_length : length full_deck = 52%nat.
Proof. reflexivity. Qed.

Lemma full_deck_NoDup : NoDup full_deck.
Proof. apply (bool_decide_unpack _). vm_compute. exact I. Qed.


Lemma swap_Permutation {T} i j (x : list T) : swap i j x ≡ₚ x.
Proof.
  unfold swap.
  destruct (x !! i) as [xi|] eqn:Hi, (x !! j) as [xj|] eqn:Hj; try done.
  by apply Permutation_insert_swap.
Qed.

Lemma shuffle_loop_Permutation {T} i (x : list T) g :
  (shuffle_loop i x g).1 ≡ₚ x.
Proof.
  revert x g. induction i as [|i IH]; intros x g; [done|].
  cbn [shuffle_loop]. destruct (randbelow (S (S i)) g) as [j g'].
  rewrite IH. apply swap_Permutation.
Qed.

Lemma shuffle_Permutation {T} (x : list T) g : (shuffle x g).1 ≡ₚ x.
Proof. apply shuffle_loop_Permutation. Qed.

Lemma Deck__init__Permutation g : cards (Deck__init__ g) ≡ₚ full_deck.
Proof.
  unfold Deck__init__.
  pose proof (shuffle_Permutation full_deck g) as Hp.
  destruct (shuffle full_deck g) as [cs g']. exact Hp.
Qed.

Lemma Deck__init__length g : length (cards (Deck__init__ g)) = 52%nat.
Proof. by rewrite Deck__init__Permutation. Qed.

Lemma snoc_cases {T} (l : list T) : l = [] ∨ ∃ l' x, l = l' ++ [x].
Proof.
  induction l as [|x l _] using rev_ind; [by left|right; eauto].
Qed.

Lemma pop_snoc {T} (l : list T) x : pop (l ++ [x]) = Some (x, l).
Proof.
  unfold pop. rewrite last_snoc, length_app. simpl.
  replace (length l + 1 - 1)%nat with (length l) by lia.
  by rewrite take_app_length.
Qed.

Lemma pop_nil {T} : pop (@nil T) = None.
Proof. reflexivity. Qed.

Lemma pop_Some {T} (l rest : list T) x :
  pop l = Some (x, rest) ↔ l = rest ++ [x].
Proof.
  split; [|intros ->; apply pop_snoc].
  destruct (snoc_cases l) as [->|(l' & y & ->)]; [done|].
  rewrite pop_snoc. by intros [= -> ->].
Qed.

Lemma pop_nonempty {T} (l : list T) :
  l ≠ [] → ∃ x rest, pop l = Some (x, rest).
Proof.
  destruct (snoc_cases l) as [->|(l' & y & ->)]; [done|].
  intros _. exists y, l'. apply pop_snoc.
Qed.

(** The two branches of [deal], as equations. *)
Lemma deal_nonempty d c rest :
  cards d = rest ++ [c] →
  deal d = Some (c, {| cards := rest; rng := rng d |}).
Proof.
  intros Hd. unfold deal.
  destruct (cards d) as [|c0 cs] eqn:Hc.
  { by destruct rest. }
  cbn zeta. rewrite Hc, Hd, pop_snoc. done.
Qed.

Lemma deal_empty d :
  cards d = [] →
  ∃ c rest,
    cards (Deck__init__ (rng d)) = rest ++ [c] ∧
    deal d = Some (c, {| cards := rest; rng := rng (Deck__init__ (rng d)) |}).
Proof.
  intros Hd. unfold deal. rewrite Hd. cbn zeta.
  destruct (pop_nonempty (cards (Deck__init__ (rng d)))) as (c & rest & Hp).
  { intros Hnil. pose proof (Deck__init__length (rng d)) as Hl.
    rewrite Hnil in Hl. done. }
  rewrite Hp. exists c, rest. split; [by apply pop_Some|done].
Qed.

Lemma deal_succeeds d : ∃ c d', deal d = Some (c, d').
Proof.
  destruct (cards d) as [|c0 cs] eqn:Hc.
  - destruct (deal_empty d Hc) as (c & rest & _ & ->). eauto.
  - destruct (snoc_cases (cards d)) as [Hnil|(rest & c & Hd)].
    { congruence. }
    rewrite (deal_nonempty d c rest Hd). eauto.
Qed.



(** *** The order of a fresh shoe *)











End DeckFacts.

(** ** Float arithmetic of the blackjack payout *)

Section Payout.

Lemma rne_exact x : Z.log2 (mant x) ≤ 52 → rne x = x.
Proof.
  intros H. unfold rne. destruct (Z.leb_spec (Z.log2 (mant x)) 52); [done|lia].
Qed.

(** Rounding either leaves the number alone or produces a full 53-bit
    significand at a larger exponent. *)
Lemma rne_cases x :
  0 < mant x →
  rne x = x ∨ (2 ^ 52 ≤ mant (rne x) ∧ expo x + 1 ≤ expo (rne x)).
Proof.
  intros Hpos. unfold rne.
  destruct (Z.leb_spec (Z.log2 (mant x)) 52) as [|Hbig]; [by left|right].
  cbn [mant expo]. split; [|lia].
  set (s := Z.log2 (mant x) - 52).
  assert (2 ^ 52 ≤ Z.shiftr (mant x) s) as Hq.
  { rewrite Z.shiftr_div_pow2 by lia.
    apply Z.div_le_lower_bound; [apply Z.pow_pos_nonneg; lia|].
    rewrite <- Z.pow_add_r by lia.
    replace (s + 52) with (Z.log2 (mant x)) by lia.
    apply Z.log2_spec. done. }
  destruct (_ || _); lia.
Qed.

Lemma shiftl_pos m e : 0 < m → 0 ≤ e → 0 < Z.shiftl m e.
Proof.
  intros Hm He. rewrite Z.shiftl_mul_pow2 by done.
  apply Z.mul_pos_pos; [done|]. apply Z.pow_pos_nonneg; lia.
Qed.

(** In the range where [5 * bet] fits a significand the float product is
    exact and [int(bet * 2.5)] is the floor of [2.5 * bet]. *)
Lemma int_times_2_5_exact b :
  0 < b → 5 * b < 2 ^ 53 → int_times_2_5 b = Ok (5 * b / 2).
Proof.
  intros Hpos Hsmall.
  assert (Z.log2 b < 53) as Hb by (apply Z.log2_lt_pow2; lia).
  assert (Z.log2 (b * 5) < 53) as Hb5 by (apply Z.log2_lt_pow2; lia).
  unfold int_times_2_5, float_of_int.
  rewrite rne_exact by (cbn [mant]; lia).
  unfold too_large. cbn [mant expo].
  destruct (Z.leb_spec 1024 (Z.log2 b + 0)); [lia|].
  unfold two_and_a_half, float_mul. cbn [mant expo].
  rewrite rne_exact by (cbn [mant]; lia).
  unfold too_large. cbn [mant expo].
  destruct (Z.leb_spec 1024 (Z.log2 (b * 5) + (0 + -1))); [lia|].
  unfold int_of_float. cbn [mant expo].
  rewrite Z.shiftl_div_pow2 by lia.
  f_equal. f_equal; lia.
Qed.

(** Whatever the size of the bet, a blackjack payout that is returned at all
    is positive. *)
Lemma int_times_2_5_positive b w :
  0 < b → int_times_2_5 b = Ok w → 0 < w.
Proof.
  intros Hpos. unfold int_times_2_5, float_of_int.
  set (x1 := rne {| mant := b; expo := 0 |}).
  assert (0 < mant x1 ∧ 0 ≤ expo x1) as [Hm1 He1].
  { destruct (rne_cases {| mant := b; expo := 0 |}) as [Heq|[? ?]];
      [done| |]; subst x1; [rewrite Heq|]; cbn [mant expo] in *; lia. }
  destruct (too_large x1); [done|].
  unfold float_mul, two_and_a_half. cbn [mant expo].
  set (z := {| mant := mant x1 * 5; expo := expo x1 + -1 |}).
  destruct (too_large (rne z)); [done|].
  unfold int_of_float. intros [= <-].
  destruct (rne_cases z) as [Heq|[Hm2 He2]].
  { subst z. cbn [mant]. lia. }
  - rewrite Heq. subst z. cbn [mant expo].
    destruct (Z.eq_dec (expo x1) 0) as [H0|Hn0].
    + rewrite H0. rewrite Z.shiftl_div_pow2 by lia.
      apply Z.div_str_pos. simpl. lia.
    + apply shiftl_pos; lia.
  - subst z. cbn [mant expo] in *. apply shiftl_pos; lia.
Qed.

Example int_times_2_5_ten : int_times_2_5 10 = Ok 25.
Proof. reflexivity. Qed.

Example int_times_2_5_seven : int_times_2_5 7 = Ok 17.
Proof. reflexivity. Qed.

Example int_times_2_5_tie_to_even :
  int_times_2_5 1801439850948199 = Ok 4503599627370498.
Proof. vm_compute. reflexivity. Qed.

Example int_times_2_5_overflow :
  int_times_2_5 (2 ^ 1023) = Raise OverflowError.
Proof. vm_compute. reflexivity. Qed.

End Payout.

(** ** The controller *)

(** What a settlement adds to the bankroll, and the message it logs. *)
Definition payout (r : result) (b : Z) : Z :=
  match r with win => b * 2 | push => b | lose => 0 end.

Definition settle_msg (r : result) (b : Z) : msg :=
  match r with
  | win => YouWin (b * 2)
  | push => PushBetReturned
  | lose => YouLostTheBet
  end.

(** [if self.bankroll <= 0: self.bankroll = 1000], as a function of the
    bankroll after the payout. *)
Definition exhaustion_reset (z : Z) : Z := if z <=? 0 then 1000 else z.

(** The message [m] was written to the log between [s] and [s']. *)
Definition logged (s s' : App) (m : msg) : Prop :=
  ∃ pre post, txt_log s' = txt_log s ++ pre ++ m :: post.

(** The dealer of [s] took the cards [cs] from the shoe, one at a time, each
    while the hand was worth less than 17, and stopped at 17 or more. *)
Definition dealer_drew (s s' : App) (cs : list card) : Prop :=
  dealer s' = dealer s ++ cs ∧
  deal_n (length cs) (deck s) = Some (cs, deck s') ∧
  (∀ k, (k < length cs)%nat → value_of_hand (dealer s ++ take k cs) < 17) ∧
  17 ≤ value_of_hand (dealer s').

(** The part of the object the engine owns; the log and the dialogs belong
    to the presentation. *)
Definition engine (s : App)
  : Deck * list card * list card * bool * Z * Z :=
  (deck s, player s, dealer s, in_round s, bankroll s, bet s).

Ltac run_M :=
  cbv beta iota zeta delta
    [mbind M_bind mret M_ret get modify log showerror lift].

(** Normal form of a state built with the setters. *)
Ltac norm_state :=
  cbv beta iota delta
    [set_deck set_player set_dealer set_in_round set_bankroll set_bet
     add_log add_dialog deck player dealer in_round bankroll bet txt_log
     dialogs].

Section Controller.

Lemma dealer_loop_eq s :
  dealer_loop s =
  if value_of_hand (dealer s) <? 17 then
    match deal (deck s) with
    | Some (c, d') =>
        dealer_loop
          (add_log (DealerHits c (value_of_hand (dealer s ++ [c])))
             (set_dealer (dealer s ++ [c]) (set_deck d' s)))
    | None => (Raise IndexError, s)
    end
  else (Ok tt, s).
Proof.
  rewrite dealer_loop_equation_1.
  unfold dealer_loop_unfold_clause_1.
  destruct (Equations.Prop.Logic.inspect _) as [[] H].
  - unfold dealer_loop_unfold_clause_1_clause_1.
    destruct (deal (deck s)) as [[c d']|]; rewrite H; reflexivity.
  - rewrite H. reflexivity.
Qed.

Lemma dealer_loop_spec_aux n : ∀ s,
  (17 - length (dealer s) ≤ n)%nat →
  ∃ cs s',
    dealer_loop s = (Ok tt, s') ∧ dealer_drew s s' cs ∧
    player s' = player s ∧ in_round s' = in_round s ∧
    bankroll s' = bankroll s ∧ bet s' = bet s ∧
    dialogs s' = dialogs s ∧ ∃ l, txt_log s' = txt_log s ++ l.
Proof.
  induction n as [|n IH]; intros s Hn; rewrite dealer_loop_eq;
    pose proof (value_of_hand_ge_length (dealer s)) as Hge;
    destruct (Z.ltb_spec (value_of_hand (dealer s)) 17) as [Hlt|Hstop].
  - lia.
  - exists [], s. unfold dealer_drew. rewrite app_nil_r. simpl.
    repeat split; try done; [intros k Hk; lia|exists []; by rewrite app_nil_r].
  - destruct (deal_succeeds (deck s)) as (c & d' & Hdeal). rewrite Hdeal.
    set (s1 := add_log _ _).
    destruct (IH s1) as (cs & s' & Hrun & (Hd & Hdn & Hwhile & Hfin) & Hrest).
    { subst s1. cbn [dealer add_log set_dealer]. rewrite length_app. simpl.
      lia. }
    subst s1. cbn [dealer deck player in_round bankroll bet dialogs txt_log
                   add_log set_dealer set_deck] in *.
    exists (c :: cs), s'. split; [done|]. split.
    + unfold dealer_drew. split; [by rewrite Hd, <- app_assoc|].
      split; [cbn [length deal_n]; by rewrite Hdeal, Hdn|].
      split; [|done].
      intros [|k] Hk; [by rewrite app_nil_r|].
      cbn [take]. rewrite (cons_middle c), app_assoc.
      apply Hwhile. simpl in Hk. lia.
    + destruct Hrest as (? & ? & ? & ? & ? & l & Hl).
      repeat split; try done. exists (DealerHits c
        (value_of_hand (dealer s ++ [c])) :: l).
      by rewrite Hl, <- app_assoc.
  - exists [], s. unfold dealer_drew. rewrite app_nil_r. simpl.
    repeat split; try done; [intros k Hk; lia|exists []; by rewrite app_nil_r].
Qed.

Lemma dealer_loop_spec s :
  ∃ cs s',
    dealer_loop s = (Ok tt, s') ∧ dealer_drew s s' cs ∧
    player s' = player s ∧ in_round s' = in_round s ∧
    bankroll s' = bankroll s ∧ bet s' = bet s ∧
    dialogs s' = dialogs s ∧ ∃ l, txt_log s' = txt_log s ++ l.
Proof. by apply (dealer_loop_spec_aux (17 - length (dealer s))). Qed.

(** The dealer never takes more than 17 cards in one automatic play. *)
Lemma dealer_drew_bound s s' cs : dealer_drew s s' cs → (length cs ≤ 17)%nat.
Proof.
  intros (_ & _ & Hwhile & _).
  destruct (snoc_cases cs) as [->|(cs' & c & ->)]; [simpl; lia|].
  specialize (Hwhile (length cs')).
  rewrite length_app in *. simpl in *.
  rewrite take_app_length in Hwhile.
  pose proof (value_of_hand_ge_length (dealer s ++ cs')) as Hge.
  rewrite length_app in Hge. lia.
Qed.

Lemma _end_round_spec s :
  let r := round_result (value_of_hand (player s))
                        (value_of_hand (dealer s)) in
  ∃ s',
    _end_round s = (Ok tt, s') ∧
    deck s' = deck s ∧ player s' = player s ∧ dealer s' = dealer s ∧
    in_round s' = in_round s ∧ bet s' = bet s ∧ dialogs s' = dialogs s ∧
    bankroll s' = exhaustion_reset (bankroll s + payout r (bet s)) ∧
    ∃ post, txt_log s' = txt_log s ++ settle_msg r (bet s) :: post.
Proof.
  intros r. unfold _end_round. run_M. fold r. unfold exhaustion_reset.
  destruct r; run_M; cbn [bankroll set_bankroll add_log payout];
    rewrite ?Z.add_0_r;
    match goal with |- context [?z <=? 0] => destruct (z <=? 0) end;
    run_M; eexists; (split; [reflexivity|]);
    cbn [deck player dealer in_round bet dialogs bankroll txt_log
         set_bankroll add_log settle_msg];
    repeat split; try done; rewrite <- ?app_assoc; eauto.
Qed.

Lemma _dealer_play_spec s :
  ∃ cs s',
    _dealer_play s = (Ok tt, s') ∧ dealer_drew s s' cs ∧
    player s' = player s ∧ in_round s' = false ∧ bet s' = bet s ∧
    dialogs s' = dialogs s ∧
    bankroll s' =
      exhaustion_reset
        (bankroll s +
         payout (round_result (value_of_hand (player s))
                              (value_of_hand (dealer s'))) (bet s)) ∧
    logged s s'
      (settle_msg (round_result (value_of_hand (player s))
                                (value_of_hand (dealer s'))) (bet s)).
Proof.
  unfold _dealer_play. run_M.
  set (s0 := add_log _ s).
  destruct (dealer_loop_spec s0)
    as (cs & s1 & Hrun & Hdrew & Hp & Hin & Hb & Hbet & Hdlg & l & Hl).
  rewrite Hrun. run_M.
  destruct Hdrew as (Hd1 & Hdn & Hwhile & Hfin).
  subst s0. cbn [deck player dealer in_round bet dialogs bankroll txt_log
                 add_log] in *.
  destruct (21 <? value_of_hand (dealer s1));
    match goal with |- context [_end_round ?s2] =>
      destruct (_end_round_spec s2)
        as (s' & Hend & Hdk' & Hp' & Hd' & Hin' & Hbet' & Hdlg' & Hb' &
            post & Hl'); rewrite Hend
    end;
    cbn [deck player dealer in_round bet dialogs bankroll txt_log
         set_in_round add_log] in *;
    exists cs, s'; (split; [done|]);
    (split; [unfold dealer_drew; rewrite Hd', Hdk'; done|]);
    rewrite Hd', Hp', Hp, Hbet', Hbet, Hdlg', Hdlg, Hb', Hb in *;
    (repeat split; try done);
    unfold logged; rewrite Hl', Hl;
    eexists (_ :: l ++ [_]), post;
    rewrite <- !app_assoc; simpl; by rewrite <- !app_assoc.
Qed.

Lemma stand_idle s : in_round s = false → stand s = (Ok tt, s).
Proof. intros H. unfold stand. run_M. by rewrite H. Qed.

Lemma hit_idle s : in_round s = false → hit s = (Ok tt, s).
Proof. intros H. unfold hit. run_M. by rewrite H. Qed.

Lemma stand_spec s :
  in_round s = true →
  ∃ cs s',
    stand s = (Ok tt, s') ∧ dealer_drew s s' cs ∧
    player s' = player s ∧ in_round s' = false ∧ bet s' = bet s ∧
    dialogs s' = dialogs s ∧
    bankroll s' =
      exhaustion_reset
        (bankroll s +
         payout (round_result (value_of_hand (player s))
                              (value_of_hand (dealer s'))) (bet s)) ∧
    logged s s'
      (settle_msg (round_result (value_of_hand (player s))
                                (value_of_hand (dealer s'))) (bet s)).
Proof.
  intros H. unfold stand. run_M. rewrite H. cbn [negb].
  set (s0 := add_log _ s).
  destruct (_dealer_play_spec s0) as (cs & s' & Hrun & Hdrew & Hrest).
  rewrite Hrun. exists cs, s'. split; [done|]. split; [exact Hdrew|].
  subst s0. cbn [player bet dialogs bankroll add_log] in Hrest.
  destruct Hrest as (? & ? & ? & ? & ? & pre & post & Hl).
  repeat split; try done.
  cbn [txt_log add_log] in Hl.
  exists (PlayerStandsWith (value_of_hand (player s)) :: pre), post.
  rewrite Hl, <- !app_assoc. done.
Qed.

Lemma hit_bust s c d' :
  in_round s = true →
  deal (deck s) = Some (c, d') →
  21 < value_of_hand (player s ++ [c]) →
  ∃ s',
    hit s = (Ok tt, s') ∧ in_round s' = false ∧
    player s' = player s ++ [c] ∧ dealer s' = dealer s ∧ deck s' = d' ∧
    bet s' = bet s ∧ dialogs s' = dialogs s ∧
    bankroll s' = exhaustion_reset (bankroll s) ∧
    logged s s' YouLostTheBet.
Proof.
  intros Hin Hdeal Hbust. unfold hit, deck_deal. run_M.
  rewrite Hin. cbn [negb]. rewrite Hdeal. cbn [player set_player set_deck].
  destruct (Z.ltb_spec 21 (value_of_hand (player s ++ [c]))); [|lia].
  run_M.
  match goal with |- context [_end_round ?s2] =>
    destruct (_end_round_spec s2)
      as (s' & Hend & Hdk' & Hp' & Hd' & Hin' & Hbet' & Hdlg' & Hb' &
          post & Hl'); rewrite Hend
  end.
  cbn [deck player dealer in_round bet dialogs bankroll txt_log
       set_in_round add_log set_player set_deck] in *.
  unfold round_result in *.
  destruct (Z.ltb_spec 21 (value_of_hand (player s ++ [c]))); [|lia].
  cbn [payout settle_msg] in *. rewrite Z.add_0_r in Hb'.
  exists s'. repeat split; try done.
  exists [PlayerHits c (value_of_hand (player s ++ [c])); PlayerBusted], post.
  rewrite Hl', <- !app_assoc. done.
Qed.

Lemma hit_safe s c d' :
  in_round s = true →
  deal (deck s) = Some (c, d') →
  value_of_hand (player s ++ [c]) ≤ 21 →
  ∃ s',
    hit s = (Ok tt, s') ∧ in_round s' = true ∧
    player s' = player s ++ [c] ∧ dealer s' = dealer s ∧ deck s' = d' ∧
    bet s' = bet s ∧ dialogs s' = dialogs s ∧ bankroll s' = bankroll s.
Proof.
  intros Hin Hdeal Hok. unfold hit, deck_deal. run_M.
  rewrite Hin. cbn [negb]. rewrite Hdeal. cbn [player set_player set_deck].
  destruct (Z.ltb_spec 21 (value_of_hand (player s ++ [c]))); [lia|].
  run_M. eexists. split; [reflexivity|]. done.
Qed.

(** *** [new_round] *)

Lemma new_round_in_progress e s :
  in_round s = true →
  new_round e s = (Ok tt, add_log RoundAlreadyInProgress s).
Proof. intros H. unfold new_round. run_M. by rewrite H. Qed.

Lemma new_round_unreadable s :
  in_round s = false →
  new_round None s = (Ok tt, add_dialog InvalidBet s).
Proof. intros H. unfold new_round. run_M. by rewrite H. Qed.

Lemma new_round_not_positive b s :
  in_round s = false → b ≤ 0 →
  new_round (Some b) s = (Ok tt, add_dialog InvalidBet s).
Proof.
  intros H Hb. unfold new_round. run_M. rewrite H.
  destruct (Z.leb_spec b 0); [done|lia].
Qed.

Lemma new_round_insufficient b s :
  in_round s = false → 0 < b → bankroll s < b →
  new_round (Some b) s = (Ok tt, add_dialog InsufficientBankroll s).
Proof.
  intros H Hb Hbr. unfold new_round. run_M. rewrite H.
  destruct (Z.leb_spec b 0); [lia|].
  destruct (Z.ltb_spec (bankroll s) b); [done|lia].
Qed.

Lemma deal_four d :
  ∃ p1 da p2 db d1 dc d2 dk,
    deal d = Some (p1, da) ∧ deal da = Some (p2, db) ∧
    deal db = Some (d1, dc) ∧ deal dc = Some (d2, dk) ∧
    deal_n 4 d = Some ([p1; p2; d1; d2], dk).
Proof.
  destruct (deal_succeeds d) as (p1 & da & H1).
  destruct (deal_succeeds da) as (p2 & db & H2).
  destruct (deal_succeeds db) as (d1 & dc & H3).
  destruct (deal_succeeds dc) as (d2 & dk & H4).
  exists p1, da, p2, db, d1, dc, d2, dk.
  cbn [deal_n]. by rewrite H1, H2, H3, H4.
Qed.

End Controller.

(** The object right after the deal of an accepted [new_round], before the
    blackjack check. *)
Definition dealt (b : Z) (p1 p2 d1 d2 : card) (dk : Deck) (s : App) : App :=
  {| deck := dk; player := [p1; p2]; dealer := [d1; d2];
     in_round := true; bankroll := bankroll s - b; bet := b;
     txt_log := txt_log s ++ [NewRoundBet b;
                              PlayerHand [p1; p2] (value_of_hand [p1; p2]);
                              DealerShows d1];
     dialogs := dialogs s |}.

(** The blackjack check of [new_round], on the object after the deal. *)
Definition blackjack_check (b : Z) (s4 : App) : res unit * App :=
  let pv := value_of_hand (player s4) in
  let dv := value_of_hand (dealer s4) in
  if (pv =? 21) && negb (dv =? 21) then
    match int_times_2_5 b with
    | Ok winnings =>
        (Ok tt,
         set_in_round false
           (add_log (BlackjackYouWin winnings)
              (set_bankroll (bankroll s4 + winnings) s4)))
    | Raise e => (Raise e, s4)
    end
  else if (pv =? 21) && (dv =? 21) then
    (Ok tt,
     set_in_round false
       (add_log BothBlackjackPush (set_bankroll (bankroll s4 + b) s4)))
  else (Ok tt, s4).

Section NewRound.

Lemma new_round_accepted b s p1 da p2 db d1 dc d2 dk :
  in_round s = false → 0 < b → b ≤ bankroll s →
  deal (deck s) = Some (p1, da) → deal da = Some (p2, db) →
  deal db = Some (d1, dc) → deal dc = Some (d2, dk) →
  new_round (Some b) s = blackjack_check b (dealt b p1 p2 d1 d2 dk s).
Proof.
  intros Hin Hb Hbr H1 H2 H3 H4.
  unfold new_round, deck_deal. run_M. rewrite Hin.
  destruct (Z.leb_spec b 0); [lia|].
  destruct (Z.ltb_spec (bankroll s) b); [lia|].
  cbn [deck set_bet set_bankroll set_deck set_player]. rewrite H1.
  cbn [deck set_bet set_bankroll set_deck set_player]. rewrite H2.
  cbn [deck set_bet set_bankroll set_deck set_player]. rewrite H3.
  cbn [deck set_bet set_bankroll set_deck set_player]. rewrite H4.
  unfold blackjack_check, dealt. norm_state.
  destruct ((value_of_hand [p1; p2] =? 21) &&
            negb (value_of_hand [d1; d2] =? 21)).
  - destruct (int_times_2_5 b) as [w|e];
      rewrite <- ?app_assoc; reflexivity.
  - destruct ((value_of_hand [p1; p2] =? 21) &&
              (value_of_hand [d1; d2] =? 21));
      rewrite <- ?app_assoc; reflexivity.
Qed.

End NewRound.

(** ** Concrete games

    A generator whose raw draws are all [b] fixes the shuffle, which makes
    whole rounds computable. *)

Definition steady (b : nat) : random_state :=
  {| entropy := λ _, b; drawn := 0 |}.

(** A sequence of calls, from first to last. *)
Definition run_all (cs : list call) (s : App) : App :=
  fold_left (λ s c, (run c s).2) cs s.

(** All-in on the first round; the player gets 2 and ace, the dealer 20. *)
Definition all_in_thirteen : App :=
  run_all [NewRound (Some 1000)] (BlackjackApp__init__ (steady 0)).

(** All-in on the first round; the player holds 6 and 7 and the next card
    of the shoe is a 10. *)
Definition all_in_before_bust : App :=
  run_all [NewRound (Some 1000)] (BlackjackApp__init__ (steady 56)).

(** A player who knows the shoe: all-in on the rounds that will be won, a
    bet of 1 on the others. *)
Definition long_winning_run : list call :=
  [
   NewRound (Some 1); Stand; NewRound (Some 999); Stand; NewRound (Some
   1998); Stand; NewRound (Some 3996); Stand; NewRound (Some 7992); Hit;
   Stand; NewRound (Some 1); Stand; NewRound (Some 1); Stand; NewRound
   (Some 15983); Stand; NewRound (Some 31966); Stand; NewRound (Some
   63932); Stand; NewRound (Some 127864); Stand; NewRound (Some 255728);
   Hit; Stand; NewRound (Some 1); Stand; NewRound (Some 1); Stand;
   NewRound (Some 511455); Stand; NewRound (Some 1022910); Stand; NewRound
   (Some 2045820); Stand; NewRound (Some 4091640); Stand; NewRound (Some
   8183280); Hit; Stand; NewRound (Some 16366560); NewRound (Some 1);
   Stand; NewRound (Some 40916399); Stand; NewRound (Some 81832798);
   Stand; NewRound (Some 163665596); Stand; NewRound (Some 327331192);
   Stand; NewRound (Some 654662384); Hit; Stand; NewRound (Some 1); Stand;
   NewRound (Some 1); Stand; NewRound (Some 1); Stand; NewRound (Some
   1309324766); Stand; NewRound (Some 2618649532); Hit; Stand; NewRound
   (Some 1); Stand; NewRound (Some 1); Stand; NewRound (Some 5237299063);
   Stand; NewRound (Some 10474598126); Stand; NewRound (Some 20949196252);
   Stand; NewRound (Some 41898392504); Stand; NewRound (Some 83796785008);
   Hit; Stand; NewRound (Some 167593570016); NewRound (Some 1); Stand;
   NewRound (Some 418983925039); Stand; NewRound (Some 837967850078);
   Stand; NewRound (Some 1675935700156); Stand; NewRound (Some
   3351871400312); Stand; NewRound (Some 6703742800624); Hit; Stand;
   NewRound (Some 1); Stand; NewRound (Some 1); Stand; NewRound (Some 1);
   Stand; NewRound (Some 13407485601246); Stand; NewRound (Some
   26814971202492); Hit; Stand; NewRound (Some 1); Stand; NewRound (Some
   1); Stand; NewRound (Some 53629942404983); Stand; NewRound (Some
   107259884809966); Stand; NewRound (Some 214519769619932); Stand;
   NewRound (Some 429039539239864); Stand; NewRound (Some
   858079078479728); Hit; Stand; NewRound (Some 1716158156959456);
   NewRound (Some 1); Stand; NewRound (Some 4290395392398639); Stand;
   NewRound (Some 8580790784797278); Stand; NewRound (Some
   17161581569594556); Stand; NewRound (Some 34323163139189112); Stand;
   NewRound (Some 68646326278378224); Hit; Stand; NewRound (Some 1);
   Stand; NewRound (Some 1); Stand; NewRound (Some 1); Stand; NewRound
   (Some 137292652556756446); Stand; NewRound (Some 274585305113512892);
   Hit; Stand; NewRound (Some 1); Stand; NewRound (Some 1); Stand;
   NewRound (Some 549170610227025783); Stand; NewRound (Some
   1098341220454051566); Stand; NewRound (Some 2196682440908103132);
   Stand; NewRound (Some 4393364881816206264); Stand; NewRound (Some
   8786729763632412528); Hit; Stand
  ].

(** The table after that run: the bankroll exceeds 1801439850948199 and the
    next deal gives the player ace and king against a dealer 20. *)
Definition high_roller : App :=
  run_all long_winning_run (BlackjackApp__init__ (steady 3)).

Lemma reachable_run_all cs s : reachable s → reachable (run_all cs s).
Proof.
  revert s. induction cs as [|c cs IH]; intros s Hs; [done|].
  cbn [run_all fold_left]. apply IH. by apply reach_call.
Qed.

Lemma all_in_thirteen_reachable : reachable all_in_thirteen.
Proof. apply reachable_run_all, reach_init. Qed.

Lemma all_in_before_bust_reachable : reachable all_in_before_bust.
Proof. apply reachable_run_all, reach_init. Qed.

Lemma high_roller_reachable : reachable high_roller.
Proof. apply reachable_run_all, reach_init. Qed.

Example high_roller_bankroll :
  bankroll high_roller = 17573459527264825056 ∧ in_round high_roller = false.
Proof. vm_compute. done. Qed.

(** ** Settlement after the dealer played *)

(** The settlement table as the specification words it: a lost round leaves
    the bankroll at its value after the bet was taken. *)
Definition settlement_as_stated (s : App) : Prop :=
  in_round s = true → 0 ≤ bankroll s → 0 < bet s →
  ∃ s', stand s = (Ok tt, s') ∧ in_round s' = false ∧
    let pv := value_of_hand (player s') in
    let dv := value_of_hand (dealer s') in
    ((21 < dv ∨ dv < pv) ∧ pv ≤ 21 →
       logged s s' (YouWin (bet s * 2)) ∧
       bankroll s' = bankroll s + 2 * bet s) ∧
    (pv = dv ∧ pv ≤ 21 →
       logged s s' PushBetReturned ∧ bankroll s' = bankroll s + bet s) ∧
    ((pv < dv ∧ dv ≤ 21) ∨ 21 < pv →
       logged s s' YouLostTheBet ∧ bankroll s' = bankroll s).

Section Settlement.

Lemma round_result_win pv dv :
  (21 < dv ∨ dv < pv) → pv ≤ 21 → round_result pv dv = win.
Proof.
  intros H Hpv. unfold round_result.
  destruct (Z.ltb_spec 21 pv); [lia|].
  destruct (Z.ltb_spec 21 dv); [done|].
  destruct (Z.ltb_spec dv pv); [done|lia].
Qed.

Lemma round_result_push pv dv :
  pv = dv → pv ≤ 21 → round_result pv dv = push.
Proof.
  intros -> Hpv. unfold round_result.
  destruct (Z.ltb_spec 21 dv); [lia|].
  destruct (Z.ltb_spec dv dv); [lia|].
  by rewrite Z.eqb_refl.
Qed.

Lemma round_result_lose pv dv :
  (pv < dv ∧ dv ≤ 21) ∨ 21 < pv → round_result pv dv = lose.
Proof.
  intros H. unfold round_result.
  destruct (Z.ltb_spec 21 pv); [done|].
  destruct (Z.ltb_spec 21 dv); [lia|].
  destruct (Z.ltb_spec dv pv); [lia|].
  destruct (Z.eqb_spec pv dv); [lia|done].
Qed.

(** C2, as amended: after the player stood and the dealer played, a win
    adds twice the bet to the bankroll, a push adds the bet, and a loss adds
    nothing; the bankroll left by a loss is the one after the bet was taken
    when that is positive, and 1000 when the bet had emptied it. *)
Theorem stand_settlement (s : App) :
  in_round s = true → 0 ≤ bankroll s → 0 < bet s →
  ∃ s', stand s = (Ok tt, s') ∧ in_round s' = false ∧
    player s' = player s ∧
    let pv := value_of_hand (player s') in
    let dv := value_of_hand (dealer s') in
    17 ≤ dv ∧
    ((21 < dv ∨ dv < pv) ∧ pv ≤ 21 →
       logged s s' (YouWin (bet s * 2)) ∧
       bankroll s' = bankroll s + 2 * bet s) ∧
    (pv = dv ∧ pv ≤ 21 →
       logged s s' PushBetReturned ∧ bankroll s' = bankroll s + bet s) ∧
    ((pv < dv ∧ dv ≤ 21) ∨ 21 < pv →
       logged s s' YouLostTheBet ∧
       bankroll s' = if bankroll s =? 0 then 1000 else bankroll s).
Proof.
  intros Hin Hbr Hbet.
  destruct (stand_spec s Hin)
    as (cs & s' & Hrun & (_ & _ & _ & Hfin) & Hp & Hin' & _ & _ & Hb & Hlog).
  exists s'. split; [done|]. split; [done|]. split; [done|].
  cbn zeta. rewrite Hp. split; [done|].
  unfold exhaustion_reset in Hb. split; [|split].
  - intros [Hw Hpv]. rewrite (round_result_win _ _ Hw Hpv) in Hb, Hlog.
    split; [done|]. cbn [payout] in Hb.
    destruct (Z.leb_spec (bankroll s + bet s * 2) 0); lia.
  - intros [He Hpv]. rewrite (round_result_push _ _ He Hpv) in Hb, Hlog.
    split; [done|]. cbn [payout] in Hb.
    destruct (Z.leb_spec (bankroll s + bet s) 0); lia.
  - intros Hl. rewrite (round_result_lose _ _ Hl) in Hb, Hlog.
    split; [done|]. cbn [payout] in Hb. rewrite Z.add_0_r in Hb.
    destruct (Z.leb_spec (bankroll s) 0), (Z.eqb_spec (bankroll s) 0); lia.
Qed.

Lemma stand_settlement_witness :
  ∃ s', stand all_in_thirteen = (Ok tt, s') ∧ in_round s' = false ∧
        bankroll s' = 1000.
Proof.
  destruct (stand_settlement all_in_thirteen)
    as (s' & Hrun & Hin & _ & _ & _ & _ & Hlose).
  - vm_compute. reflexivity.
  - vm_compute. discriminate.
  - vm_compute. reflexivity.
  - exists s'. split; [exact Hrun|]. split; [exact Hin|].
    assert (s' = (stand all_in_thirteen).2) as -> by (by rewrite Hrun).
    vm_compute. reflexivity.
Defined.

(** C2, counterexample: after an all-in bet of 1000 the player stands on 13
    against a dealer 20 and loses; the bankroll after the bet was 0 and the
    settlement leaves 1000. *)
Lemma settlement_as_stated_fails : ¬ settlement_as_stated all_in_thirteen.
Proof.
  intros Hclaim.
  destruct Hclaim as (s' & Hrun & _ & _ & _ & Hlose).
  - vm_compute. reflexivity.
  - vm_compute. discriminate.
  - vm_compute. reflexivity.
  - assert (s' = (stand all_in_thirteen).2) as -> by (by rewrite Hrun).
    destruct Hlose as [_ Hb].
    + left. vm_compute. split; [reflexivity|discriminate].
    + vm_compute in Hb. discriminate.
Qed.

End Settlement.

(** ** Hitting *)

(** The bust rule as the specification words it. *)
Definition hit_as_stated (s : App) : Prop :=
  in_round s = true →
  ∃ c d' s',
    deal (deck s) = Some (c, d') ∧ hit s = (Ok tt, s') ∧
    player s' = player s ++ [c] ∧
    (21 < value_of_hand (player s') →
       in_round s' = false ∧ logged s s' YouLostTheBet ∧
       dealer s' = dealer s ∧ deck s' = d' ∧
       bankroll s' = bankroll s) ∧
    (value_of_hand (player s') ≤ 21 → in_round s' = true).

Section Hitting.

(** C5, as amended: a hit during the player's turn appends the dealt card;
    when the hand then exceeds 21 the round is settled as lost at once, the
    dealer takes no card, and the bankroll stays at its value after the bet
    was taken unless the bet had emptied it, in which case it becomes 1000;
    otherwise the round goes on with the bankroll untouched. *)
Theorem hit_settlement (s : App) :
  in_round s = true →
  ∃ c d' s',
    deal (deck s) = Some (c, d') ∧ hit s = (Ok tt, s') ∧
    player s' = player s ++ [c] ∧ dealer s' = dealer s ∧ deck s' = d' ∧
    bet s' = bet s ∧
    (21 < value_of_hand (player s') →
       in_round s' = false ∧ logged s s' YouLostTheBet ∧
       bankroll s' = if bankroll s <=? 0 then 1000 else bankroll s) ∧
    (value_of_hand (player s') ≤ 21 →
       in_round s' = true ∧ bankroll s' = bankroll s).
Proof.
  intros Hin. destruct (deal_succeeds (deck s)) as (c & d' & Hdeal).
  exists c, d'.
  destruct (Z.lt_ge_cases 21 (value_of_hand (player s ++ [c]))) as [Hb|Hs].
  - destruct (hit_bust s c d' Hin Hdeal Hb)
      as (s' & Hrun & Hin' & Hp & Hd & Hdk & Hbet & _ & Hbr & Hlog).
    exists s'. rewrite Hp. do 6 (split; [done|]). split.
    + intros _. by rewrite Hbr.
    + intros ?. lia.
  - destruct (hit_safe s c d' Hin Hdeal Hs)
      as (s' & Hrun & Hin' & Hp & Hd & Hdk & Hbet & _ & Hbr).
    exists s'. rewrite Hp. do 6 (split; [done|]). split.
    + intros ?. lia.
    + intros _. done.
Qed.

Lemma hit_settlement_witness :
  ∃ s', hit all_in_before_bust = (Ok tt, s') ∧
        dealer s' = dealer all_in_before_bust.
Proof.
  destruct (hit_settlement all_in_before_bust)
    as (c & d' & s' & _ & Hrun & _ & Hd & _).
  - vm_compute. reflexivity.
  - exists s'. split; [exact Hrun|exact Hd].
Defined.

(** C5, counterexample: after an all-in bet of 1000 the player hits 6, 7
    with a 10 and busts; the bankroll after the bet was 0 and the settlement
    leaves 1000. *)
Lemma hit_as_stated_fails : ¬ hit_as_stated all_in_before_bust.
Proof.
  intros Hclaim.
  destruct Hclaim as (c & d' & s' & _ & Hrun & _ & Hbust & _).
  { vm_compute. reflexivity. }
  assert (s' = (hit all_in_before_bust).2) as -> by (by rewrite Hrun).
  destruct Hbust as (_ & _ & _ & _ & Hb).
  - vm_compute. reflexivity.
  - vm_compute in Hb. discriminate.
Qed.

End Hitting.

(** ** Starting a round *)

Section StartingARound.

(** While [5 * bet] fits the significand of a float the opening of a round
    is as the specification describes it: a player blackjack against a
    dealer without one pays the floor of 2.5 times the bet, two blackjacks
    give the bet back, and anything else opens the player's turn. *)
Lemma new_round_settlement b s :
  in_round s = false → 0 < b → b ≤ bankroll s → 5 * b < 2 ^ 53 →
  ∃ p1 p2 d1 d2 dk s',
    deal_n 4 (deck s) = Some ([p1; p2; d1; d2], dk) ∧
    new_round (Some b) s = (Ok tt, s') ∧
    player s' = [p1; p2] ∧ dealer s' = [d1; d2] ∧ deck s' = dk ∧
    bet s' = b ∧
    let pv := value_of_hand [p1; p2] in
    let dv := value_of_hand [d1; d2] in
    (pv = 21 ∧ dv ≠ 21 →
       in_round s' = false ∧ logged s s' (BlackjackYouWin (5 * b / 2)) ∧
       bankroll s' = bankroll s - b + 5 * b / 2) ∧
    (pv = 21 ∧ dv = 21 →
       in_round s' = false ∧ logged s s' BothBlackjackPush ∧
       bankroll s' = bankroll s - b + b) ∧
    (pv ≠ 21 → in_round s' = true ∧ bankroll s' = bankroll s - b).
Proof.
  intros Hin Hb Hbr Hsmall.
  destruct (deal_four (deck s))
    as (p1 & da & p2 & db & d1 & dc & d2 & dk & H1 & H2 & H3 & H4 & Hn).
  exists p1, p2, d1, d2, dk.
  rewrite (new_round_accepted b s _ _ _ _ _ _ _ _ Hin Hb Hbr H1 H2 H3 H4).
  unfold blackjack_check. rewrite (int_times_2_5_exact b Hb Hsmall).
  cbn [player dealer dealt].
  destruct (Z.eqb_spec (value_of_hand [p1; p2]) 21) as [Hp|Hp],
           (Z.eqb_spec (value_of_hand [d1; d2]) 21) as [Hd|Hd];
    cbn [andb negb]; eexists; (split; [exact Hn|]);
    (split; [reflexivity|]); unfold logged, dealt; norm_state;
    do 4 (split; [reflexivity|]); (split; [|split]);
    try (intros [? ?]; done); try (intros ?; done).
  - intros _. split; [done|]. split; [|lia].
    exists [NewRoundBet b; PlayerHand [p1; p2] (value_of_hand [p1; p2]);
            DealerShows d1], [].
    by rewrite <- app_assoc.
  - intros _. split; [done|]. split; [|lia].
    exists [NewRoundBet b; PlayerHand [p1; p2] (value_of_hand [p1; p2]);
            DealerShows d1], [].
    by rewrite <- app_assoc.
Qed.

(** C3, at a bet of 1801439850948199 on a table reached from a new
    application: the player is dealt a blackjack against a dealer 20 and the
    round is settled, but the amount credited is 4503599627370498 while the
    floor of 2.5 times the bet is 4503599627370497. *)
Theorem natural_payout_rounding :
  let b := 1801439850948199 in
  let s' := (new_round (Some b) high_roller).2 in
  reachable high_roller ∧
  in_round high_roller = false ∧ 0 < b ∧ b ≤ bankroll high_roller ∧
  player s' = [(A, Clubs); (K, Clubs)] ∧
  dealer s' = [(Q, Clubs); (J, Clubs)] ∧
  value_of_hand (player s') = 21 ∧ value_of_hand (dealer s') = 20 ∧
  in_round s' = false ∧
  bankroll s' - (bankroll high_roller - b) = 4503599627370498 ∧
  5 * b / 2 = 4503599627370497.
Proof.
  split; [exact high_roller_reachable|].
  vm_compute. repeat split; discriminate.
Qed.

End StartingARound.

(** ** Rejected calls *)

(** The guards at the head of the three methods: a call is rejected when
    [new_round] finds a round in progress, an entry that is no positive
    integer, or a bet above the bankroll, and when [hit] or [stand] finds no
    round in progress. *)
Definition rejected (c : call) (s : App) : bool :=
  match c with
  | NewRound e =>
      in_round s ||
      match e with
      | None => true
      | Some b => (b <=? 0) || (bankroll s <? b)
      end
  | Hit | Stand => negb (in_round s)
  end.

Section Rejection.

(** C7: a rejected call returns without raising and leaves the shoe, both
    hands, the round flag, the bankroll and the bet exactly as they were; a
    positive bet above the bankroll is answered with the
    insufficient-bankroll dialog. *)
Theorem rejected_call_leaves_engine (c : call) (s : App) :
  rejected c s = true →
  ∃ s', run c s = (Ok tt, s') ∧ engine s' = engine s ∧
    (∀ b, c = NewRound (Some b) → in_round s = false → 0 < b →
          dialogs s' = dialogs s ++ [InsufficientBankroll]).
Proof.
  destruct c as [e| |]; cbn [rejected run]; intros Hrej.
  - destruct (in_round s) eqn:Hin.
    { rewrite (new_round_in_progress e s Hin). eexists.
      split; [reflexivity|]. split; [done|]. by intros b _ [=]. }
    destruct e as [b|].
    + cbn [orb] in Hrej. destruct (Z.leb_spec b 0) as [Hle|Hpos].
      * rewrite (new_round_not_positive b s Hin Hle). eexists.
        split; [reflexivity|]. unfold engine. rewrite <- Hin.
        split; [done|]. intros b' [= <-] _ ?. lia.
      * cbn [orb] in Hrej. apply Z.ltb_lt in Hrej.
        rewrite (new_round_insufficient b s Hin Hpos Hrej). eexists.
        split; [reflexivity|]. unfold engine. rewrite <- Hin.
        split; [done|]. done.
    + rewrite (new_round_unreadable s Hin). eexists.
      split; [reflexivity|]. unfold engine. rewrite <- Hin.
      split; [done|]. by intros b [=].
  - apply negb_true_iff in Hrej. rewrite (hit_idle s Hrej).
    exists s. split; [done|]. split; [done|]. by intros b [=].
  - apply negb_true_iff in Hrej. rewrite (stand_idle s Hrej).
    exists s. split; [done|]. split; [done|]. by intros b [=].
Qed.

Lemma rejected_call_leaves_engine_witness :
  ∃ s', run (NewRound (Some 2000)) (BlackjackApp__init__ (steady 0))
        = (Ok tt, s') ∧
        engine s' = engine (BlackjackApp__init__ (steady 0)).
Proof.
  destruct (rejected_call_leaves_engine (NewRound (Some 2000))
              (BlackjackApp__init__ (steady 0)))
    as (s' & Hrun & Heng & _).
  - vm_compute. reflexivity.
  - exists s'. split; [exact Hrun|exact Heng].
Defined.

End Rejection.

(** ** The exhausted bankroll *)

Section Exhaustion.

(** C8: on each of the three ways a round is settled the bankroll the call
    leaves is the bankroll after the payout, replaced by 1000 when that is
    zero or less: after [stand], after a bust in [hit], and after a
    blackjack or a double blackjack in [new_round], where the payout always
    leaves a positive bankroll. *)
Theorem settlement_resets_exhausted_bankroll (s : App) :
  (in_round s = true →
   ∃ s', stand s = (Ok tt, s') ∧ in_round s' = false ∧
     bankroll s' =
       exhaustion_reset
         (bankroll s +
          payout (round_result (value_of_hand (player s'))
                               (value_of_hand (dealer s'))) (bet s))) ∧
  (in_round s = true →
   ∀ c d', deal (deck s) = Some (c, d') →
     21 < value_of_hand (player s ++ [c]) →
     ∃ s', hit s = (Ok tt, s') ∧ in_round s' = false ∧
       bankroll s' = exhaustion_reset (bankroll s + payout lose (bet s))) ∧
  (in_round s = false →
   ∀ b s', 0 < b → b ≤ bankroll s →
     new_round (Some b) s = (Ok tt, s') → in_round s' = false →
     ∃ credit,
       (int_times_2_5 b = Ok credit ∨ credit = b) ∧
       bankroll s' = exhaustion_reset (bankroll s - b + credit) ∧
       0 < bankroll s').
Proof.
  split; [|split].
  - intros Hin.
    destruct (stand_spec s Hin)
      as (cs & s' & Hrun & _ & Hp & Hin' & _ & _ & Hb & _).
    exists s'. rewrite Hp. done.
  - intros Hin c d' Hdeal Hbust.
    destruct (hit_bust s c d' Hin Hdeal Hbust)
      as (s' & Hrun & Hin' & _ & _ & _ & _ & _ & Hb & _).
    exists s'. cbn [payout]. rewrite Z.add_0_r. done.
  - intros Hin b s' Hb Hbr Hrun Hin'.
    destruct (deal_four (deck s))
      as (p1 & da & p2 & db & d1 & dc & d2 & dk & H1 & H2 & H3 & H4 & _).
    rewrite (new_round_accepted b s _ _ _ _ _ _ _ _ Hin Hb Hbr H1 H2 H3 H4)
      in Hrun.
    unfold blackjack_check, exhaustion_reset in *.
    destruct (_ && negb _).
    + destruct (int_times_2_5 b) as [w|e] eqn:Hw; [|done].
      pose proof (int_times_2_5_positive b w Hb Hw).
      injection Hrun as <-. exists w.
      cbn [bankroll set_in_round add_log set_bankroll dealt].
      split; [by left|].
      destruct (Z.leb_spec (bankroll s - b + w) 0); lia.
    + destruct (_ && _).
      * injection Hrun as <-. exists b.
        cbn [bankroll set_in_round add_log set_bankroll dealt].
        split; [by right|].
        destruct (Z.leb_spec (bankroll s - b + b) 0); lia.
      * injection Hrun as <-. done.
Qed.

Lemma settlement_resets_exhausted_bankroll_witness :
  ∃ s', stand all_in_thirteen = (Ok tt, s') ∧ bankroll s' = 1000.
Proof.
  destruct (settlement_resets_exhausted_bankroll all_in_thirteen)
    as [Hstand _].
  destruct Hstand as (s' & Hrun & _ & Hb).
  - vm_compute. reflexivity.
  - exists s'. split; [exact Hrun|].
    assert (s' = (stand all_in_thirteen).2) as -> by (by rewrite Hrun).
    vm_compute. reflexivity.
Defined.

End Exhaustion.

(** ** The bankroll invariant *)

(** The bankroll is never negative, and it is positive between rounds. *)
Definition solvent (s : App) : Prop :=
  0 ≤ bankroll s ∧ (in_round s = false → 0 < bankroll s).

Section Invariant.

Lemma exhaustion_reset_pos z : 0 < exhaustion_reset z.
Proof. unfold exhaustion_reset. destruct (Z.leb_spec z 0); lia. Qed.

Lemma solvent_same s s' :
  bankroll s' = bankroll s → in_round s' = in_round s →
  solvent s → solvent s'.
Proof. unfold solvent. intros -> ->. done. Qed.

Lemma new_round_solvent e s : solvent s → solvent (new_round e s).2.
Proof.
  intros Hs. pose proof Hs as [Hnn Hidle].
  destruct (in_round s) eqn:Hin.
  { rewrite (new_round_in_progress e s Hin).
    by apply (solvent_same s). }
  destruct e as [b|];
    [|rewrite (new_round_unreadable s Hin); by apply (solvent_same s)].
  destruct (Z.le_gt_cases b 0) as [Hle|Hpos].
  { rewrite (new_round_not_positive b s Hin Hle).
    by apply (solvent_same s). }
  destruct (Z.lt_ge_cases (bankroll s) b) as [Hlt|Hge].
  { rewrite (new_round_insufficient b s Hin Hpos Hlt).
    by apply (solvent_same s). }
  destruct (deal_four (deck s))
    as (p1 & da & p2 & db & d1 & dc & d2 & dk & H1 & H2 & H3 & H4 & _).
  rewrite (new_round_accepted b s _ _ _ _ _ _ _ _ Hin Hpos Hge H1 H2 H3 H4).
  unfold blackjack_check, solvent.
  destruct (_ && negb _).
  - destruct (int_times_2_5 b) as [w|e] eqn:Hw;
      cbn [snd bankroll in_round set_in_round add_log set_bankroll dealt].
    + pose proof (int_times_2_5_positive b w Hpos Hw). lia.
    + split; [lia|done].
  - destruct (_ && _);
      cbn [snd bankroll in_round set_in_round add_log set_bankroll dealt].
    + lia.
    + split; [lia|done].
Qed.

Lemma hit_solvent s : solvent s → solvent (hit s).2.
Proof.
  intros Hs. pose proof Hs as [Hnn Hidle].
  destruct (in_round s) eqn:Hin; [|by rewrite (hit_idle s Hin)].
  destruct (deal_succeeds (deck s)) as (c & d' & Hdeal).
  destruct (Z.lt_ge_cases 21 (value_of_hand (player s ++ [c]))) as [Hb|Hok].
  - destruct (hit_bust s c d' Hin Hdeal Hb)
      as (s' & -> & _ & _ & _ & _ & _ & _ & Hbr & _).
    pose proof (exhaustion_reset_pos (bankroll s)).
    unfold solvent. cbn [snd]. lia.
  - destruct (hit_safe s c d' Hin Hdeal Hok)
      as (s' & -> & Hin' & _ & _ & _ & _ & _ & Hbr).
    unfold solvent. cbn [snd]. rewrite Hin', Hbr. split; [done|done].
Qed.

Lemma stand_solvent s : solvent s → solvent (stand s).2.
Proof.
  intros Hs. pose proof Hs as [Hnn Hidle].
  destruct (in_round s) eqn:Hin; [|by rewrite (stand_idle s Hin)].
  destruct (stand_spec s Hin) as (cs & s' & -> & _ & _ & _ & _ & _ & Hbr & _).
  unfold solvent. cbn [snd]. rewrite Hbr.
  match goal with |- context [exhaustion_reset ?z] =>
    pose proof (exhaustion_reset_pos z) end.
  lia.
Qed.

Lemma reachable_solvent s : reachable s → solvent s.
Proof.
  induction 1 as [g|c s _ IH].
  - unfold solvent. cbn [BlackjackApp__init__ bankroll in_round]. lia.
  - destruct c; cbn [run];
      [by apply new_round_solvent|by apply hit_solvent|by apply stand_solvent].
Qed.

(** C10: in every state reached from a new application by any sequence of
    [new_round], [hit] and [stand] calls the bankroll is not negative, and
    it is positive whenever no round is in progress. *)
Theorem bankroll_never_negative (s : App) :
  reachable s →
  0 ≤ bankroll s ∧ (in_round s = false → 0 < bankroll s).
Proof. apply reachable_solvent. Qed.

Lemma bankroll_never_negative_witness :
  let s := (run (NewRound (Some 1000)) (BlackjackApp__init__ (steady 0))).2 in
  reachable s ∧ 0 ≤ bankroll s ∧ (in_round s = false → 0 < bankroll s).
Proof.
  intros s.
  assert (reachable s) as Hr by (apply reach_call, reach_init).
  split; [exact Hr|].
  exact (bankroll_never_negative s Hr).
Defined.

End Invariant.

(** ** The dealer's automatic play *)

Section DealerPlay.

(** C4: from every state the dealer's play returns; the dealer's hand grows
    by the cards the shoe deals next, one at a time, each drawn while the
    hand was worth less than 17, never more than 17 of them, and the final
    hand is worth 17 or more. *)
Theorem dealer_draws_to_seventeen (s : App) :
  ∃ cs s',
    _dealer_play s = (Ok tt, s') ∧ dealer_drew s s' cs ∧
    (length cs ≤ 17)%nat ∧ 17 ≤ value_of_hand (dealer s') ∧
    player s' = player s.
Proof.
  destruct (_dealer_play_spec s) as (cs & s' & Hrun & Hdrew & Hp & _).
  exists cs, s'. split; [done|]. split; [done|].
  split; [by apply (dealer_drew_bound s s')|].
  split; [apply Hdrew|done].
Qed.

Example dealer_draws_two :
  let s := (new_round (Some 1000) (BlackjackApp__init__ (steady 51))).2 in
  dealer s = [(R3, Spades); (R4, Spades)] ∧
  dealer (stand s).2 =
    [(R3, Spades); (R4, Spades); (R5, Spades); (R6, Spades)].
Proof. vm_compute. done. Qed.

Example natural_blackjack_scenario :
  let s' := (new_round (Some 10) (BlackjackApp__init__ (steady 8))).2 in
  player s' = [(R10, Spades); (A, Clubs)] ∧
  dealer s' = [(K, Clubs); (Q, Clubs)] ∧
  bankroll s' = 1015 ∧ in_round s' = false.
Proof. vm_compute. done. Qed.

End DealerPlay.

(** * Further properties

    ** Ace counting *)

(** The total of a hand in which [k] of the aces count 1 and the others
    11: [vals] after the [for] loop of [value_of_hand], less 10 per demoted
    ace. *)
Definition total_with (hand : list card) (k : nat) : Z :=
  Reference.raw hand - 10 * Z.of_nat k.

(** Cards worth ten: the ten and the three pictures. *)
Definition is_ten (c : card) : bool :=
  match c.1 with R10 | J | Q | K => true | _ => false end.

Section AceCounting.

Lemma reduce_aces_spec vals aces :
  ∃ k, (k ≤ aces)%nat ∧
    reduce_aces vals aces = vals - 10 * Z.of_nat k ∧
    (21 < reduce_aces vals aces → k = aces) ∧
    (∀ j, (j < k)%nat → 21 < vals - 10 * Z.of_nat j).
Proof.
  revert vals. induction aces as [|n IH]; intros vals; cbn [reduce_aces].
  - exists O. split; [lia|]. split; [simpl; lia|]. split; lia.
  - destruct (Z.ltb_spec 21 vals) as [Hgt|Hle].
    + destruct (IH (vals - 10)) as (k & Hk & Heq & Hbust & Hbelow).
      exists (S k). split; [lia|]. split; [lia|]. split; [lia|].
      intros [|j] Hj; [lia|]. specialize (Hbelow j). lia.
    + exists O. split; [lia|]. split; [simpl; lia|]. split; lia.
Qed.

Lemma raw_app h1 h2 :
  Reference.raw (h1 ++ h2) = Reference.raw h1 + Reference.raw h2.
Proof.
  induction h1 as [|c h1 IH]; [done|].
  cbn [app]. rewrite !raw_cons, IH. lia.
Qed.

Lemma aceCount_app h1 h2 :
  Reference.aceCount (h1 ++ h2) =
  (Reference.aceCount h1 + Reference.aceCount h2)%nat.
Proof.
  induction h1 as [|c h1 IH]; [done|].
  cbn [app]. rewrite !aceCount_cons, IH. lia.
Qed.

(** With every ace at 1 each card still counts at least 1. *)
Lemma hard_total_lower_bound hand :
  Z.of_nat (length hand) ≤
  Reference.raw hand - 10 * Z.of_nat (Reference.aceCount hand).
Proof.
  induction hand as [|[r s] hand IH]; [done|].
  rewrite raw_cons, aceCount_cons, length_cons.
  destruct r; cbn [Reference.is_ace Reference.card_value fst]; lia.
Qed.

Lemma raw_upper_bound hand :
  Reference.raw hand ≤ 11 * Z.of_nat (length hand).
Proof.
  induction hand as [|[r s] hand IH]; [done|].
  rewrite raw_cons, length_cons.
  destruct r; cbn [Reference.card_value fst]; lia.
Qed.

Lemma reduce_aces_le vals aces : reduce_aces vals aces ≤ vals.
Proof.
  destruct (reduce_aces_spec vals aces) as (k & _ & -> & _). lia.
Qed.

(** A hand busts exactly when it exceeds 21 with every ace at 1. *)
Lemma bust_iff_hard_total hand :
  21 < value_of_hand hand ↔
  21 < Reference.raw hand - 10 * Z.of_nat (Reference.aceCount hand).
Proof.
  rewrite value_of_hand_unfold.
  destruct (reduce_aces_spec (Reference.raw hand) (Reference.aceCount hand))
    as (k & Hk & Heq & Hbust & _).
  split; intros H.
  - rewrite (Hbust H) in Heq. lia.
  - lia.
Qed.

(** X1: aces are counted as 1 or 11 optimally.  The value returned is the
    total for some number of demoted aces; no total of the hand that stays
    within 21 is higher; and when the value exceeds 21 every ace counts 1
    and every other way of counting the aces exceeds 21 as well. *)
Theorem value_of_hand_optimal (hand : list card) :
  (∃ k, (k ≤ Reference.aceCount hand)%nat ∧
        value_of_hand hand = total_with hand k) ∧
  (∀ k, (k ≤ Reference.aceCount hand)%nat →
        total_with hand k ≤ 21 → total_with hand k ≤ value_of_hand hand) ∧
  (21 < value_of_hand hand →
     value_of_hand hand = total_with hand (Reference.aceCount hand) ∧
     ∀ k, (k ≤ Reference.aceCount hand)%nat → 21 < total_with hand k).
Proof.
  rewrite value_of_hand_unfold. unfold total_with.
  destruct (reduce_aces_spec (Reference.raw hand) (Reference.aceCount hand))
    as (k & Hk & Heq & Hbust & Hbelow).
  split; [by exists k|]. split.
  - intros j Hj Hok. rewrite Heq.
    destruct (Nat.lt_ge_cases j k) as [Hlt|Hge]; [|lia].
    specialize (Hbelow j Hlt). lia.
  - intros H. specialize (Hbust H). subst k. split; [done|].
    intros j Hj. lia.
Qed.

Lemma value_of_hand_optimal_witness :
  total_with [(A, Spades); (A, Hearts); (R9, Clubs)] 1 ≤
  value_of_hand [(A, Spades); (A, Hearts); (R9, Clubs)].
Proof.
  apply (value_of_hand_optimal [(A, Spades); (A, Hearts); (R9, Clubs)]).
  - vm_compute. lia.
  - vm_compute. discriminate.
Defined.

(** X2: a hand of [n] cards is worth at least [n] and at most [11 n]; the
    value never exceeds the sum with every ace at 11. *)
Theorem value_of_hand_bounds (hand : list card) :
  Z.of_nat (length hand) ≤ value_of_hand hand ∧
  value_of_hand hand ≤ Reference.raw hand ∧
  value_of_hand hand ≤ 11 * Z.of_nat (length hand).
Proof.
  pose proof (raw_upper_bound hand).
  pose proof (hard_total_lower_bound hand).
  rewrite value_of_hand_unfold.
  pose proof (reduce_aces_le (Reference.raw hand) (Reference.aceCount hand)).
  pose proof (reduce_aces_lower_bound (Reference.raw hand)
                (Reference.aceCount hand)).
  lia.
Qed.

(** X3: a bust is final: a hand worth more than 21 stays above 21 whatever
    cards are added to it. *)
Theorem bust_is_final (hand more : list card) :
  21 < value_of_hand hand → 21 < value_of_hand (hand ++ more).
Proof.
  rewrite !bust_iff_hard_total, raw_app, aceCount_app.
  pose proof (hard_total_lower_bound more). lia.
Qed.

Lemma bust_is_final_witness :
  21 < value_of_hand ([(K, Spades); (R9, Hearts); (R6, Clubs)] ++
                      [(A, Diamonds)]).
Proof.
  apply (bust_is_final [(K, Spades); (R9, Hearts); (R6, Clubs)]).
  vm_compute. reflexivity.
Defined.

(** X4: two cards never exceed 21, and they make 21 exactly when one is an
    ace and the other a ten or a picture: the test of [new_round] for a
    blackjack. *)
Theorem two_cards (c1 c2 : card) :
  value_of_hand [c1; c2] ≤ 21 ∧
  (value_of_hand [c1; c2] =? 21) =
    (Reference.is_ace c1 && is_ten c2) || (is_ten c1 && Reference.is_ace c2).
Proof.
  destruct c1 as [r1 s1], c2 as [r2 s2].
  destruct r1, r2; vm_compute; split; first [discriminate | reflexivity].
Qed.

End AceCounting.

(** ** The order of the deals *)

Section DealOrder.

Lemma deal_n_take_drop (n : nat) (d : Deck) :
  (n ≤ length (cards d))%nat →
  deal_n n d =
    Some (rev (drop (length (cards d) - n) (cards d)),
          {| cards := take (length (cards d) - n) (cards d);
             rng := rng d |}).
Proof.
  revert d. induction n as [|n IH]; intros d Hn.
  - cbn [deal_n]. rewrite Nat.sub_0_r, drop_all, take_ge by lia.
    by destruct d.
  - destruct (snoc_cases (cards d)) as [Hnil|(rest & c & Hd)].
    { rewrite Hnil in Hn. simpl in Hn. lia. }
    cbn [deal_n]. rewrite (deal_nonempty d c rest Hd).
    rewrite Hd, length_app in Hn. simpl in Hn.
    rewrite IH by (cbn [cards]; lia). cbn [cards rng].
    rewrite Hd, length_app. simpl.
    replace (length rest + 1 - S n)%nat with (length rest - n)%nat by lia.
    rewrite drop_app_le, take_app_le by lia.
    by rewrite rev_app_distr.
Qed.

(** X5: while the shoe holds at least [n] cards, [n] deals take its last
    [n] cards, last one first, leave the others in place, shuffle nothing
    and draw nothing from the generator. *)
Theorem deal_n_from_the_top (n : nat) (d : Deck) :
  (n ≤ length (cards d))%nat →
  deal_n n d =
    Some (rev (drop (length (cards d) - n) (cards d)),
          {| cards := take (length (cards d) - n) (cards d);
             rng := rng d |}).
Proof.
  intros Hn. destruct d as [cs g]. cbn [cards rng] in *.
  exact (deal_n_take_drop n {| cards := cs; rng := g |} Hn).
Qed.

Lemma deal_n_from_the_top_witness :
  deal_n 2 {| cards := [(R2, Spades); (K, Hearts); (A, Clubs)];
              rng := steady 0 |} =
  Some ([(A, Clubs); (K, Hearts)],
        {| cards := [(R2, Spades)]; rng := steady 0 |}).
Proof.
  apply (deal_n_from_the_top 2
           {| cards := [(R2, Spades); (K, Hearts); (A, Clubs)];
              rng := steady 0 |}).
  simpl. lia.
Defined.

(** X6: the 52 deals that empty a fresh shoe hand out every card of the
    deck exactly once. *)
Theorem fresh_shoe_deals_every_card_once (g : random_state) :
  ∃ cs d',
    deal_n 52 (Deck__init__ g) = Some (cs, d') ∧
    cs ≡ₚ full_deck ∧ NoDup cs ∧ cards d' = [].
Proof.
  pose proof (Deck__init__length g) as Hl.
  pose proof (Deck__init__Permutation g) as Hp.
  eexists _, _. split.
  { apply deal_n_take_drop. lia. }
  rewrite Hl. cbn [Nat.sub drop take cards].
  assert (rev (cards (Deck__init__ g)) ≡ₚ full_deck) as Hrev.
  { by rewrite <- Permutation_rev. }
  split; [done|]. split; [|done].
  rewrite Hrev. apply full_deck_NoDup.
Qed.

End DealOrder.

(** ** The payout expression *)

Section PayoutExpression.

Lemma rne_log2 x :
  0 < mant x →
  0 < mant (rne x) ∧
  Z.log2 (mant (rne x)) + expo (rne x) ≤ Z.log2 (mant x) + expo x + 1.
Proof.
  intros Hpos. unfold rne.
  destruct (Z.leb_spec (Z.log2 (mant x)) 52) as [|Hbig]; [lia|].
  cbn [mant expo].
  set (s := Z.log2 (mant x) - 52).
  set (q := Z.shiftr (mant x) s).
  assert (2 ^ 52 ≤ q < 2 ^ 53) as [Hlo Hhi].
  { subst q. rewrite Z.shiftr_div_pow2 by lia.
    pose proof (Z.log2_spec (mant x) Hpos) as [Hl Hu].
    assert (0 < 2 ^ s) by (apply Z.pow_pos_nonneg; lia).
    split.
    - apply Z.div_le_lower_bound; [done|].
      rewrite <- Z.pow_add_r by lia.
      by replace (s + 52) with (Z.log2 (mant x)) by lia.
    - apply Z.div_lt_upper_bound; [done|].
      rewrite <- Z.pow_add_r by lia.
      by replace (s + 53) with (Z.succ (Z.log2 (mant x))) by lia. }
  assert (∀ q', q ≤ q' ≤ q + 1 → 0 < q' ∧ Z.log2 q' ≤ 53) as Hq.
  { intros q' Hq'. split; [lia|].
    assert (q' < 2 ^ 53 ∨ q' = 2 ^ 53) as [Hlt| ->] by lia.
    - assert (Z.log2 q' < 53) by (apply Z.log2_lt_pow2; lia). lia.
    - by rewrite Z.log2_pow2. }
  destruct (_ || _).
  - destruct (Hq (q + 1)); lia.
  - destruct (Hq q); lia.
Qed.

(** Bets below [2^1020] are far inside the float range: the payout of a
    blackjack is computed without an exception. *)
Lemma int_times_2_5_returns b :
  0 < b → b < 2 ^ 1020 → ∃ w, int_times_2_5 b = Ok w.
Proof.
  intros Hpos Hsmall.
  assert (Z.log2 b < 1020) as Hb by (apply Z.log2_lt_pow2; lia).
  unfold int_times_2_5, float_of_int.
  destruct (rne_log2 {| mant := b; expo := 0 |}) as [Hm1 Hl1]; [done|].
  cbn [mant expo] in Hl1.
  set (x1 := rne {| mant := b; expo := 0 |}) in *.
  unfold too_large at 1.
  destruct (Z.leb_spec 1024 (Z.log2 (mant x1) + expo x1)); [lia|].
  unfold float_mul, two_and_a_half. cbn [mant expo].
  destruct (rne_log2 {| mant := mant x1 * 5; expo := expo x1 + -1 |})
    as [Hm2 Hl2]; [cbn [mant]; lia|].
  cbn [mant expo] in Hl2.
  assert (Z.log2 (mant x1 * 5) ≤ Z.log2 (mant x1) + 3) as Hl5.
  { transitivity (Z.log2 (mant x1 * 2 ^ 3)).
    - apply Z.log2_le_mono. lia.
    - rewrite Z.log2_mul_pow2 by lia. lia. }
  set (x2 := rne {| mant := mant x1 * 5; expo := expo x1 + -1 |}) in *.
  unfold too_large.
  destruct (Z.leb_spec 1024 (Z.log2 (mant x2) + expo x2)); [lia|].
  eexists. reflexivity.
Qed.

Lemma int_times_2_5_raises b e :
  int_times_2_5 b = Raise e → e = OverflowError.
Proof.
  unfold int_times_2_5, float_of_int.
  destruct (too_large _); [by intros [= <-]|].
  unfold float_mul, two_and_a_half.
  destruct (too_large _); cbn [int_of_float]; [by intros [= <-]|done].
Qed.

(** X8: the payout expression [int(self.bet * 2.5)] of [new_round], for a
    positive bet: below [2^1020] it returns, and the amount is positive;
    while [5 * bet < 2^53] the amount is exactly the floor of 2.5 times the
    bet; and whenever it raises, the exception is [OverflowError] and the
    bet is at least [2^1020]. *)
Theorem blackjack_payout_is_computed (b : Z) :
  0 < b →
  (b < 2 ^ 1020 → ∃ w, int_times_2_5 b = Ok w ∧ 0 < w) ∧
  (5 * b < 2 ^ 53 → int_times_2_5 b = Ok (5 * b / 2)) ∧
  (∀ e, int_times_2_5 b = Raise e → e = OverflowError ∧ 2 ^ 1020 ≤ b).
Proof.
  intros Hpos. split; [|split].
  - intros Hsmall.
    destruct (int_times_2_5_returns b Hpos Hsmall) as (w & Hw).
    exists w. split; [done|]. by apply (int_times_2_5_positive b).
  - by apply int_times_2_5_exact.
  - intros e He. split; [by apply (int_times_2_5_raises b)|].
    destruct (Z.lt_ge_cases b (2 ^ 1020)) as [Hsmall|]; [|done].
    destruct (int_times_2_5_returns b Hpos Hsmall) as (w & Hw).
    congruence.
Qed.

Lemma blackjack_payout_is_computed_witness :
  int_times_2_5 7 = Ok (5 * 7 / 2).
Proof.
  apply (blackjack_payout_is_computed 7); lia.
Defined.

(** A bet at which the expression does raise: the round is left in
    progress, after the deal. *)
Example new_round_overflow :
  let r := new_round (Some (2 ^ 1023))
             (set_bankroll (2 ^ 1023) (BlackjackApp__init__ (steady 8))) in
  r.1 = Raise OverflowError ∧ in_round r.2 = true ∧ bankroll r.2 = 0.
Proof. vm_compute. done. Qed.

(** X9: an accepted [new_round] with [5 * bet < 2^53] takes the bet, deals
    the next four cards of the shoe, two to the player and then two to the
    dealer, and pays the floor of 2.5 times the bet on a player blackjack,
    gives the bet back on two blackjacks, and otherwise leaves the round in
    progress. *)
Theorem new_round_in_exact_range (b : Z) (s : App) :
  in_round s = false → 0 < b → b ≤ bankroll s → 5 * b < 2 ^ 53 →
  ∃ p1 p2 d1 d2 dk s',
    deal_n 4 (deck s) = Some ([p1; p2; d1; d2], dk) ∧
    new_round (Some b) s = (Ok tt, s') ∧
    player s' = [p1; p2] ∧ dealer s' = [d1; d2] ∧ deck s' = dk ∧
    bet s' = b ∧
    let pv := value_of_hand [p1; p2] in
    let dv := value_of_hand [d1; d2] in
    (pv = 21 ∧ dv ≠ 21 →
       in_round s' = false ∧ logged s s' (BlackjackYouWin (5 * b / 2)) ∧
       bankroll s' = bankroll s - b + 5 * b / 2) ∧
    (pv = 21 ∧ dv = 21 →
       in_round s' = false ∧ logged s s' BothBlackjackPush ∧
       bankroll s' = bankroll s - b + b) ∧
    (pv ≠ 21 → in_round s' = true ∧ bankroll s' = bankroll s - b).
Proof. apply new_round_settlement. Qed.

Lemma new_round_in_exact_range_witness :
  ∃ s', new_round (Some 10) (BlackjackApp__init__ (steady 8)) = (Ok tt, s') ∧
        bet s' = 10.
Proof.
  destruct (new_round_in_exact_range 10 (BlackjackApp__init__ (steady 8)))
    as (p1 & p2 & d1 & d2 & dk & s' & _ & Hrun & _ & _ & _ & Hbet & _).
  - reflexivity.
  - lia.
  - simpl. lia.
  - lia.
  - exists s'. split; [exact Hrun|exact Hbet].
Defined.

End PayoutExpression.

(** ** Invariants of the table *)

(** What holds of the hands, the bet and the shoe in every state the
    application reaches: the bet is positive, the shoe is part of one deck,
    and during a round the dealer holds two cards and the player at least
    two, worth at most 21. *)
Definition table_ok (s : App) : Prop :=
  0 < bet s ∧
  cards (deck s) ⊆+ full_deck ∧
  (in_round s = true →
     length (dealer s) = 2%nat ∧ (2 ≤ length (player s))%nat ∧
     value_of_hand (player s) ≤ 21).

Section TableInvariants.

Lemma two_cards_at_most_21 (c1 c2 : card) : value_of_hand [c1; c2] ≤ 21.
Proof.
  destruct c1 as [r1 s1], c2 as [r2 s2].
  destruct r1, r2; vm_compute; discriminate.
Qed.

Lemma deal_shoe d c d' :
  deal d = Some (c, d') →
  cards d ⊆+ full_deck → cards d' ⊆+ full_deck.
Proof.
  intros Hdeal Hsub.
  destruct (snoc_cases (cards d)) as [Hnil|(rest & c0 & Hd)].
  - destruct (deal_empty d Hnil) as (c1 & rest & Hinit & Hrun).
    rewrite Hrun in Hdeal.
    assert (d' = {| cards := rest; rng := rng (Deck__init__ (rng d)) |})
      as -> by congruence.
    cbn [cards].
    rewrite <- (Deck__init__Permutation (rng d)), Hinit.
    by apply submseteq_inserts_r.
  - rewrite (deal_nonempty d c0 rest Hd) in Hdeal.
    assert (d' = {| cards := rest; rng := rng d |}) as -> by congruence.
    cbn [cards].
    rewrite <- Hsub, Hd. by apply submseteq_inserts_r.
Qed.

Lemma deal_n_shoe n : ∀ d cs d',
  deal_n n d = Some (cs, d') →
  cards d ⊆+ full_deck → cards d' ⊆+ full_deck.
Proof.
  induction n as [|n IH]; intros d cs d'; cbn [deal_n].
  - by intros [= <- <-].
  - destruct (deal d) as [[c d1]|] eqn:Hdeal; [|done].
    destruct (deal_n n d1) as [[cs1 d2]|] eqn:Hn; [|done].
    intros [= <- <-] Hsub.
    apply (IH d1 cs1 d2 Hn). by apply (deal_shoe d c d1).
Qed.

Lemma new_round_table_ok e s : table_ok s → table_ok (new_round e s).2.
Proof.
  intros Hs. pose proof Hs as (Hbet & Hshoe & Hround).
  destruct (in_round s) eqn:Hin.
  { by rewrite (new_round_in_progress e s Hin). }
  destruct e as [b|]; [|by rewrite (new_round_unreadable s Hin)].
  destruct (Z.le_gt_cases b 0) as [Hle|Hpos].
  { rewrite (new_round_not_positive b s Hin Hle).
    unfold table_ok. cbn [snd bet deck in_round add_dialog].
    by rewrite Hin. }
  destruct (Z.lt_ge_cases (bankroll s) b) as [Hlt|Hge].
  { rewrite (new_round_insufficient b s Hin Hpos Hlt).
    unfold table_ok. cbn [snd bet deck in_round add_dialog].
    by rewrite Hin. }
  destruct (deal_four (deck s))
    as (p1 & da & p2 & db & d1 & dc & d2 & dk & H1 & H2 & H3 & H4 & Hn).
  rewrite (new_round_accepted b s _ _ _ _ _ _ _ _ Hin Hpos Hge H1 H2 H3 H4).
  pose proof (deal_n_shoe 4 _ _ _ Hn Hshoe) as Hdk.
  pose proof (two_cards_at_most_21 p1 p2) as Hp.
  unfold blackjack_check, table_ok.
  destruct (_ && negb _); [destruct (int_times_2_5 b)|destruct (_ && _)];
    cbn [snd bet deck in_round player dealer dealt set_in_round add_log
         set_bankroll length];
    (split; [done|]); (split; [done|]); try done.
Qed.

Lemma hit_table_ok s : table_ok s → table_ok (hit s).2.
Proof.
  intros Hs. pose proof Hs as (Hbet & Hshoe & Hround).
  destruct (in_round s) eqn:Hin; [|by rewrite (hit_idle s Hin)].
  destruct (Hround eq_refl) as (Hd2 & Hp2 & _).
  destruct (deal_succeeds (deck s)) as (c & d' & Hdeal).
  pose proof (deal_shoe _ _ _ Hdeal Hshoe) as Hd'.
  destruct (Z.lt_ge_cases 21 (value_of_hand (player s ++ [c]))) as [Hb|Hok].
  - destruct (hit_bust s c d' Hin Hdeal Hb)
      as (s' & -> & Hin' & _ & _ & Hdk & Hbet' & _).
    unfold table_ok. cbn [snd]. rewrite Hin', Hdk, Hbet'. done.
  - destruct (hit_safe s c d' Hin Hdeal Hok)
      as (s' & -> & Hin' & Hp & Hd & Hdk & Hbet' & _).
    unfold table_ok. cbn [snd]. rewrite Hp, Hd, Hdk, Hbet', length_app.
    simpl. repeat split; try done. lia.
Qed.

Lemma stand_table_ok s : table_ok s → table_ok (stand s).2.
Proof.
  intros Hs. pose proof Hs as (Hbet & Hshoe & Hround).
  destruct (in_round s) eqn:Hin; [|by rewrite (stand_idle s Hin)].
  destruct (stand_spec s Hin)
    as (cs & s' & -> & (_ & Hn & _) & _ & Hin' & Hbet' & _).
  unfold table_ok. cbn [snd]. rewrite Hin', Hbet'.
  split; [done|]. split; [|done].
  by apply (deal_n_shoe _ _ _ _ Hn).
Qed.

Lemma reachable_table_ok s : reachable s → table_ok s.
Proof.
  induction 1 as [g|c s _ IH].
  - unfold table_ok. cbn [BlackjackApp__init__ bet deck in_round].
    split; [lia|]. split; [|done].
    by rewrite Deck__init__Permutation.
  - destruct c; cbn [run];
      [by apply new_round_table_ok|by apply hit_table_ok
      |by apply stand_table_ok].
Qed.

(** X10: in every reachable state the bet is positive, and while a round is
    in progress the dealer holds exactly two cards and the player at least
    two, worth at most 21: a busted hand never stays in play. *)
Theorem hands_in_play (s : App) :
  reachable s →
  0 < bet s ∧
  (in_round s = true →
     length (dealer s) = 2%nat ∧ (2 ≤ length (player s))%nat ∧
     value_of_hand (player s) ≤ 21).
Proof.
  intros Hr. destruct (reachable_table_ok s Hr) as (? & _ & ?). done.
Qed.

Lemma hands_in_play_witness :
  reachable all_in_thirteen ∧ 0 < bet all_in_thirteen.
Proof.
  split; [exact all_in_thirteen_reachable|].
  exact (proj1 (hands_in_play all_in_thirteen all_in_thirteen_reachable)).
Defined.

(** X11: in every reachable state the shoe holds cards of one deck: no
    card twice, never more than 52. *)
Theorem shoe_is_part_of_one_deck (s : App) :
  reachable s →
  cards (deck s) ⊆+ full_deck ∧ NoDup (cards (deck s)) ∧
  (length (cards (deck s)) ≤ 52)%nat.
Proof.
  intros Hr. destruct (reachable_table_ok s Hr) as (_ & Hsub & _).
  split; [done|]. split.
  - destruct (submseteq_Permutation _ _ Hsub) as (k & Hk).
    pose proof full_deck_NoDup as Hnd. rewrite Hk in Hnd.
    by apply NoDup_app in Hnd as (? & _).
  - rewrite <- full_deck_length. by apply submseteq_length.
Qed.

Lemma shoe_is_part_of_one_deck_witness :
  NoDup (cards (deck all_in_before_bust)).
Proof.
  exact (proj1 (proj2 (shoe_is_part_of_one_deck all_in_before_bust
                         all_in_before_bust_reachable))).
Defined.

End TableInvariants.

(** ** The dealer's total *)

Section DealerTotal.

Lemma reduce_aces_add vals v aces :
  0 ≤ v → reduce_aces (vals + v) aces ≤ reduce_aces vals aces + v.
Proof.
  intros Hv. revert vals.
  induction aces as [|n IH]; intros vals; cbn [reduce_aces]; [lia|].
  destruct (Z.ltb_spec 21 (vals + v)), (Z.ltb_spec 21 vals); try lia.
  - replace (vals + v - 10) with (vals - 10 + v) by lia. apply IH.
  - pose proof (reduce_aces_le (vals + v - 10) n). lia.
Qed.

(** One more card adds at most 10 to a hand, unless the hand stays within
    21 anyway: an ace that would bust counts 1. *)
Lemma value_of_hand_snoc hand c :
  value_of_hand (hand ++ [c]) ≤ value_of_hand hand + 10 ∨
  value_of_hand (hand ++ [c]) ≤ 21.
Proof.
  rewrite !value_of_hand_unfold, raw_app, aceCount_app.
  rewrite (raw_cons c []), (aceCount_cons c []).
  change (Reference.raw []) with 0.
  change (Reference.aceCount []) with O.
  rewrite Z.add_0_r, !Nat.add_0_r.
  set (vals := Reference.raw hand). set (aces := Reference.aceCount hand).
  destruct c as [r s].
  destruct r; cbn [Reference.is_ace Reference.card_value fst];
    rewrite ?Nat.add_0_r;
    try (left;
         match goal with |- reduce_aces (_ + ?v) _ ≤ _ =>
           pose proof (reduce_aces_add vals v aces) end; lia).
  rewrite Nat.add_1_r. cbn [reduce_aces].
  destruct (Z.ltb_spec 21 (vals + 11)); [left|right; lia].
  replace (vals + 11 - 10) with (vals + 1) by lia.
  pose proof (reduce_aces_add vals 1 aces). lia.
Qed.

(** X12: when the player stands in a reachable round the dealer ends on a
    total between 17 and 26. *)
Theorem dealer_total_range (s : App) :
  reachable s → in_round s = true →
  ∃ s', stand s = (Ok tt, s') ∧
        17 ≤ value_of_hand (dealer s') ∧ value_of_hand (dealer s') ≤ 26.
Proof.
  intros Hr Hin.
  destruct (reachable_table_ok s Hr) as (_ & _ & Hround).
  destruct (Hround Hin) as (Hd2 & _).
  destruct (stand_spec s Hin)
    as (cs & s' & Hrun & (Hd & _ & Hwhile & Hfin) & _).
  exists s'. split; [done|]. split; [done|].
  rewrite Hd.
  destruct (snoc_cases cs) as [->|(cs' & c & ->)].
  - rewrite app_nil_r.
    destruct (dealer s) as [|c1 [|c2 [|? ?]]]; try done.
    pose proof (two_cards_at_most_21 c1 c2). lia.
  - specialize (Hwhile (length cs')).
    rewrite length_app, take_app_length in Hwhile. simpl in Hwhile.
    rewrite app_assoc.
    destruct (value_of_hand_snoc (dealer s ++ cs') c); lia.
Qed.

Lemma dealer_total_range_witness :
  ∃ s', stand all_in_thirteen = (Ok tt, s') ∧
        value_of_hand (dealer s') ≤ 26.
Proof.
  destruct (dealer_total_range all_in_thirteen)
    as (s' & Hrun & _ & Hle).
  - exact all_in_thirteen_reachable.
  - vm_compute. reflexivity.
  - exists s'. split; [exact Hrun|exact Hle].
Defined.

End DealerTotal.

(** ** Calls in sequence *)

Section Sequences.

(** X13: once the player has stood, or has busted on a hit, the round is
    over: further [hit] and [stand] calls return at once and change
    nothing, log included. *)
Theorem settled_round_is_inert (s : App) :
  let s1 := (stand s).2 in
  let s2 := (hit s).2 in
  (in_round s1 = false ∧ hit s1 = (Ok tt, s1) ∧ stand s1 = (Ok tt, s1)) ∧
  (21 < value_of_hand (player s2) →
   in_round s2 = false ∧ hit s2 = (Ok tt, s2) ∧ stand s2 = (Ok tt, s2)).
Proof.
  cbn zeta. split.
  - assert (in_round (stand s).2 = false) as Hin'.
    { destruct (in_round s) eqn:Hin.
      - by destruct (stand_spec s Hin) as (cs & s' & -> & _ & _ & ? & _).
      - by rewrite (stand_idle s Hin). }
    split; [done|]. split; [by apply hit_idle|by apply stand_idle].
  - intros Hbust.
    assert (in_round (hit s).2 = false) as Hin'.
    { destruct (in_round s) eqn:Hin; [|by rewrite (hit_idle s Hin)].
      destruct (deal_succeeds (deck s)) as (c & d' & Hdeal).
      destruct (Z.lt_ge_cases 21 (value_of_hand (player s ++ [c])))
        as [Hb|Hok].
      - by destruct (hit_bust s c d' Hin Hdeal Hb) as (s' & -> & ? & _).
      - destruct (hit_safe s c d' Hin Hdeal Hok)
          as (s' & Hrun & _ & Hp & _).
        rewrite Hrun in Hbust. cbn [snd] in Hbust. rewrite Hp in Hbust.
        lia. }
    split; [done|]. split; [by apply hit_idle|by apply stand_idle].
Qed.

Lemma settled_round_is_inert_witness :
  stand (hit all_in_before_bust).2 = (Ok tt, (hit all_in_before_bust).2).
Proof.
  apply (proj2 (settled_round_is_inert all_in_before_bust)).
  vm_compute. reflexivity.
Defined.

Lemma hit_safe_log s c d' :
  in_round s = true →
  deal (deck s) = Some (c, d') →
  value_of_hand (player s ++ [c]) ≤ 21 →
  txt_log (hit s).2 =
    txt_log s ++ [PlayerHits c (value_of_hand (player s ++ [c]))] ∧
  dialogs (hit s).2 = dialogs s.
Proof.
  intros Hin Hdeal Hok. unfold hit, deck_deal. run_M.
  rewrite Hin. cbn [negb]. rewrite Hdeal. cbn [player set_player set_deck].
  destruct (Z.ltb_spec 21 (value_of_hand (player s ++ [c]))); [lia|].
  done.
Qed.

(** X14: no call erases or rewrites what was shown: the log and the list of
    error dialogs only grow at the end.  A dialog is raised by no call
    other than [new_round], one at a time, and the call that raises it
    leaves the engine as it was. *)
Theorem presentation_only_grows (c : call) (s : App) :
  ∃ lines boxes,
    txt_log (run c s).2 = txt_log s ++ lines ∧
    dialogs (run c s).2 = dialogs s ++ boxes ∧
    (boxes = [] ∨
     ∃ e box, c = NewRound e ∧ boxes = [box] ∧
              engine (run c s).2 = engine s).
Proof.
  destruct c as [e| |]; cbn [run].
  - destruct (in_round s) eqn:Hin.
    { rewrite (new_round_in_progress e s Hin).
      exists [RoundAlreadyInProgress], []. rewrite app_nil_r. auto. }
    assert (∀ box, ∃ lines boxes,
      txt_log (Ok (), add_dialog box s).2 = txt_log s ++ lines ∧
      dialogs (Ok (), add_dialog box s).2 = dialogs s ++ boxes ∧
      (boxes = [] ∨
       ∃ e0 box0, NewRound e = NewRound e0 ∧ boxes = [box0] ∧
                  engine (Ok (), add_dialog box s).2 = engine s)) as Hbox.
    { intros box. exists [], [box]. rewrite app_nil_r.
      split; [done|]. split; [done|]. right. by exists e, box. }
    destruct e as [b|]; [|rewrite (new_round_unreadable s Hin); apply Hbox].
    destruct (Z.le_gt_cases b 0) as [Hle|Hpos].
    { rewrite (new_round_not_positive b s Hin Hle). apply Hbox. }
    destruct (Z.lt_ge_cases (bankroll s) b) as [Hlt|Hge].
    { rewrite (new_round_insufficient b s Hin Hpos Hlt). apply Hbox. }
    destruct (deal_four (deck s))
      as (p1 & da & p2 & db & d1 & dc & d2 & dk & H1 & H2 & H3 & H4 & _).
    rewrite (new_round_accepted b s _ _ _ _ _ _ _ _ Hin Hpos Hge H1 H2 H3 H4).
    unfold blackjack_check.
    destruct (_ && negb _); [destruct (int_times_2_5 b)|destruct (_ && _)];
      cbn [snd txt_log dialogs dealt set_in_round add_log set_bankroll];
      eexists _, []; rewrite <- ?app_assoc; (split; [reflexivity|]);
      (split; [by rewrite app_nil_r|]); by left.
  - destruct (in_round s) eqn:Hin;
      [|rewrite (hit_idle s Hin); exists [], []; rewrite !app_nil_r; auto].
    destruct (deal_succeeds (deck s)) as (c & d' & Hdeal).
    destruct (Z.lt_ge_cases 21 (value_of_hand (player s ++ [c]))) as [Hb|Hok].
    + destruct (hit_bust s c d' Hin Hdeal Hb)
        as (s' & -> & _ & _ & _ & _ & _ & Hdlg & _ & pre & post & Hl).
      exists (pre ++ YouLostTheBet :: post), [].
      rewrite app_nil_r. auto.
    + destruct (hit_safe_log s c d' Hin Hdeal Hok) as [Hl Hdlg].
      eexists _, []. split; [exact Hl|]. rewrite app_nil_r. auto.
  - destruct (in_round s) eqn:Hin;
      [|rewrite (stand_idle s Hin); exists [], []; rewrite !app_nil_r; auto].
    destruct (stand_spec s Hin)
      as (cs & s' & -> & _ & _ & _ & _ & Hdlg & _ & pre & post & Hl).
    eexists _, []. split; [exact Hl|]. rewrite app_nil_r. auto.
Qed.

End Sequences.

(** ** What the window shows: [_render_hand] and [_update_ui] *)

From stdpp Require Import strings pretty.

Module View.

(** The texts of [RANKS] and [SUITS]. *)
Definition rank_text (r : rank) : string :=
  match r with
  | R2 => "2" | R3 => "3" | R4 => "4" | R5 => "5" | R6 => "6" | R7 => "7"
  | R8 => "8" | R9 => "9" | R10 => "10"
  | J => "J" | Q => "Q" | K => "K" | A => "A"
  end.

Definition suit_text (s : suit) : string :=
  match s with
  | Spades => "♠" | Hearts => "♥" | Diamonds => "♦" | Clubs => "♣"
  end.

(** [f'{r}{s}'] *)
Definition card_text (c : card) : string := rank_text c.1 +:+ suit_text c.2.

(** [sep.join(parts)] *)
Fixpoint join (sep : string) (parts : list string) : string :=
  match parts with
  | [] => ""
  | [p] => p
  | p :: rest => p +:+ sep +:+ join sep rest
  end.

(** ['  '.join([f'{r}{s}' for r,s in hand])] *)
Definition _render_hand (hand : list card) : string :=
  join "  " (card_text <$> hand).

(** [f'  ({value_of_hand(hand)})' if hand else ''] *)
Definition total_text (hand : list card) : string :=
  match hand with
  | [] => ""
  | _ :: _ => "  (" +:+ pretty (value_of_hand hand) +:+ ")"
  end.

(** The three labels [_update_ui] writes. *)
Record labels := {
  txt_dealer : string;
  txt_player : string;
  lbl_bankroll : string
}.

Definition _update_ui (s : App) : labels :=
  {| txt_dealer :=
       if in_round s then
         match dealer s with
         | c :: _ :: _ => card_text c +:+ "  ??"
         | _ => _render_hand (dealer s)
         end
       else _render_hand (dealer s) +:+ total_text (dealer s);
     txt_player := _render_hand (player s) +:+ total_text (player s);
     lbl_bankroll := pretty (bankroll s) |}.

Example update_ui_in_round :
  txt_dealer (_update_ui all_in_thirteen) = "K♣  ??" ∧
  txt_player (_update_ui all_in_thirteen) = "2♠  A♣  (13)" ∧
  lbl_bankroll (_update_ui all_in_thirteen) = "0".
Proof. vm_compute. done. Qed.

Example update_ui_settled :
  txt_dealer (_update_ui (stand all_in_thirteen).2) = "K♣  Q♣  (20)" ∧
  lbl_bankroll (_update_ui (stand all_in_thirteen).2) = "1000".
Proof. vm_compute. done. Qed.

(** X15: while a round is in progress, in any reachable state, the dealer's
    label shows the first of the dealer's two cards followed by two question
    marks, and it would show the same text whatever the second card were:
    neither the hole card nor the dealer's total can be read off it. *)
Theorem hole_card_is_hidden (s : App) :
  reachable s → in_round s = true →
  ∃ up hole,
    dealer s = [up; hole] ∧
    txt_dealer (_update_ui s) = card_text up +:+ "  ??" ∧
    ∀ other,
      txt_dealer (_update_ui (set_dealer [up; other] s)) =
      txt_dealer (_update_ui s).
Proof.
  intros Hr Hin.
  destruct (reachable_table_ok s Hr) as (_ & _ & Hround).
  destruct (Hround Hin) as (Hd2 & _).
  destruct (dealer s) as [|up [|hole [|? ?]]] eqn:Hd; try done.
  exists up, hole. split; [done|].
  unfold _update_ui. cbn [txt_dealer in_round dealer set_dealer].
  rewrite Hin, Hd. done.
Qed.

Lemma hole_card_is_hidden_witness :
  ∃ up hole, dealer all_in_thirteen = [up; hole] ∧
             txt_dealer (_update_ui all_in_thirteen) = card_text up +:+ "  ??".
Proof.
  destruct (hole_card_is_hidden all_in_thirteen)
    as (up & hole & Hd & Htxt & _).
  - exact all_in_thirteen_reachable.
  - vm_compute. reflexivity.
  - exists up, hole. split; [exact Hd|exact Htxt].
Defined.

End View.
